(** * mongo-go-exp: the evergreen-test reporters and the agg builders

    A shallow embedding of [cmd/evergreen-test] (the test-name filter, the
    [topfail] and [failstats] reporters, the GraphQL helper and the report
    fetcher) and of the [agg] operator builders, with the properties the
    specification states about them.

    Go strings are byte sequences compared byte by byte; they are [string]
    here, ordered by [String.le] (stdpp's name for [String.leb]).  Go [int]
    values are [Z].  Go maps with string keys are [gmap string _]. *)

From stdpp Require Import gmap strings list sorting.

Local Open Scope string_scope.
Local Open Scope list_scope.

(** ** Part I: definitions *)

(** *** Strings *)

(** [strings.HasPrefix(s, prefix)]. *)
Definition HasPrefix (s prefix : string) : bool := String.prefix prefix s.

(** [a < b] on Go strings. *)
Definition less_string (a b : string) : bool := String.ltb a b.

(** *** Sorting

    [sort.Strings] and [sort.Slice] sort a slice in place.  On slices of at
    most twelve elements both run an insertion sort: each element moves
    left past every element it is less than.  That algorithm is written
    here, over any [less]. *)
Fixpoint insert_by {T} (less : T -> T -> bool) (x : T) (sorted : list T)
  : list T :=
  match sorted with
  | [] => [x]
  | y :: rest =>
      if less x y then x :: y :: rest else y :: insert_by less x rest
  end.

Definition insertion_sort {T} (less : T -> T -> bool) (data : list T) : list T :=
  foldl (fun sorted x => insert_by less x sorted) [] data.

(** [sort.Strings]: increasing order.  The order on strings is total and
    antisymmetric, so the sorted slice is determined by its contents
    whatever algorithm runs (see [sort_Strings_unique]). *)
Definition sort_Strings (data : list string) : list string :=
  insertion_sort less_string data.

(** *** filterTests (main.go)

    The loop body at index [i], with [res] the slice built so far.  The
    comparison [i >= len(tests)-1] is on Go ints; [tests[i+1]] is only read
    when [i+1] is in range, by the short-circuit of [||]. *)
Definition filterTests_step (tests : list string) (res : list string) (i : nat)
  : list string :=
  if (Z.of_nat i >=? Z.of_nat (length tests) - 1)%Z
     || HasPrefix (tests !!! (i + 1)) (tests !!! i +:+ "/")
  then res
  else res ++ [tests !!! i].

(** The call has an effect on its argument: [sort.Strings(tests)] reorders
    the caller's slice.  The result pairs the contents of that slice after
    the call with the slice returned. *)
Definition filterTests (tests : list string) : list string * list string :=
  let tests := sort_Strings tests in
  let res := foldl (filterTests_step tests) [] (seq 0 (length tests)) in
  (tests, res).

(** What the loop computes, by recursion on the sorted slice: a name is
    kept when a next name exists and is not the name followed by a slash
    and more. *)
Fixpoint scan (tests : list string) : list string :=
  match tests with
  | [] => []
  | x :: rest =>
      match rest with
      | [] => []
      | y :: _ => if HasPrefix y (x +:+ "/") then scan rest else x :: scan rest
      end
  end.

(** The path rule of the specification: [child] is [parent], a slash, and a
    suffix. *)
Definition strict_ancestor (parent child : string) : Prop :=
  exists suffix, child = parent +:+ "/" +:+ suffix.

(** No name of [names] is a strict ancestor of a name of [names]. *)
Definition ancestor_free (names : list string) : Prop :=
  forall x y, x ∈ names -> y ∈ names -> ~ strict_ancestor x y.

(** *** The report tree (main.go) *)

Record taskInfo := {
  Task : string;
  FailedTests : list string
}.

Record variantInfo := {
  DisplayName : string;
  FailedTasks : list taskInfo
}.

(** [Created] is a [time.Time]; it is carried as a number of nanoseconds and
    never inspected. *)
Record revisionInfo := {
  VersionID : string;
  Created : Z;
  Revision : string;
  Message : string;
  FailedVariants : list variantInfo
}.

(** *** Counters

    A Go [int] is 64 bits wide and [x++] wraps around. *)
Definition wrap_int (z : Z) : Z := ((z + 2 ^ 63) mod 2 ^ 64 - 2 ^ 63)%Z.

Definition incr (x : Z) : Z := wrap_int (x + 1).

(** [m[k]++] on a [map[string]int]: a missing key reads as 0. *)
Definition bump (k : string) (m : gmap string Z) : gmap string Z :=
  <[k := incr (default 0%Z (m !! k))]> m.

(** *** Library calls whose result the language leaves open

    Ranging over a map visits its entries in an unspecified order, and
    [sort.Slice] is not stable.  The reporters take both as parameters:
    [range_map] lists the entries of a map in the order the loop meets
    them, [sort_Slice less x] is the slice after the call. *)
Definition range_fn := forall V, gmap string V -> list (string * V).
Definition sort_fn := forall T, (T -> T -> bool) -> list T -> list T.

(** What [sort.Slice] asks of [less]. *)
Record strict_weak_order {T} (less : T -> T -> bool) : Prop := {
  swo_irrefl : forall x, less x x = false;
  swo_trans : forall x y z, less x y = true -> less y z = true -> less x z = true;
  swo_neg_trans :
    forall x y z, less x y = false -> less y z = false -> less x z = false
}.

(** What the callers get: the same elements, no element before one that is
    less than it. *)
Record sort_contract (sort_Slice : sort_fn) : Prop := {
  sort_Slice_Permutation :
    forall T (less : T -> T -> bool) x, sort_Slice T less x ≡ₚ x;
  sort_Slice_Sorted :
    forall T (less : T -> T -> bool) x,
      strict_weak_order less ->
      Sorted (fun a b => less b a = false) (sort_Slice T less x)
}.

Definition range_contract (range_map : range_fn) : Prop :=
  forall V (m : gmap string V), range_map V m ≡ₚ map_to_list m.

(** One run of each: the entries in the order [map_to_list] gives them, and
    the insertion sort above. *)
Definition range_as_stored : range_fn := fun V m => map_to_list m.

Definition sort_Slice_short : sort_fn := fun T less x => insertion_sort less x.

(** Another sort that meets the contract: it differs on elements that
    compare equal. *)
Definition sort_Slice_reversed : sort_fn :=
  fun T less x => insertion_sort less (reverse x).

(** *** topfail (topfail.go) *)

Record failedTestInfo := {
  Test : string;
  FailedTasksPerRevision : gmap string (list string);
  FailuresPerRevision : gmap string Z;
  TotalFailures : Z
}.

(** The body of the innermost loop.  The map holds pointers; each is
    reachable through its key only, so the pointed record is updated in the
    map.  A missing key reads as the nil pointer, which the code replaces by
    a record with two empty maps. *)
Definition record_failure (revision task test : string)
    (tests : gmap string failedTestInfo) : gmap string failedTestInfo :=
  let info :=
    default {| Test := ""; FailedTasksPerRevision := ∅;
               FailuresPerRevision := ∅; TotalFailures := 0 |}
            (tests !! test) in
  let tasks := default [] (FailedTasksPerRevision info !! revision) in
  <[test := {| Test := test;
               FailedTasksPerRevision :=
                 <[revision := tasks ++ [task]]> (FailedTasksPerRevision info);
               FailuresPerRevision := bump revision (FailuresPerRevision info);
               TotalFailures := incr (TotalFailures info) |}]> tests.

(** The four nested loops over the report tree.  [filterTests] also sorts
    [task.FailedTests] in place; nothing reads that slice afterwards. *)
Definition aggregate (infos : list revisionInfo) : gmap string failedTestInfo :=
  foldl (fun tests info =>
    foldl (fun tests variant =>
      foldl (fun tests task =>
        foldl (fun tests test =>
                 record_failure (Revision info) (Task task) test tests)
              tests (filterTests (FailedTests task)).2)
        tests (FailedTasks variant))
      tests (FailedVariants info))
    ∅ infos.

(** The slicing under [if limit >= 0 && len(testInfos) > limit].  Inside
    the branch [0 <= n < len(testInfos)], so [testInfos[:n]] is in range. *)
Definition truncate {T} (limit : Z) (testInfos : list T) : list T :=
  if (limit >=? 0)%Z && (Z.of_nat (length testInfos) >? limit)%Z then
    let n := limit in
    let n := if (n >=? Z.of_nat (length testInfos))%Z
             then (Z.of_nat (length testInfos) - 1)%Z else n in
    take (Z.to_nat n) testInfos
  else testInfos.

(** A printed row: the count, then the name. *)
Definition row : Type := Z * string.

Definition by_TotalFailures (a b : failedTestInfo) : bool :=
  (TotalFailures a >? TotalFailures b)%Z.

(** *** failstats

    [strings.Contains(s, substr)]. *)
Definition Contains (s substr : string) : bool :=
  match String.index 0 substr s with Some _ => true | None => false end.

(** The three counters: per version, per variant, per task. *)
Definition tally (testName : string) (infos : list revisionInfo)
  : gmap string Z * gmap string Z * gmap string Z :=
  foldl (fun acc info =>
    foldl (fun acc variant =>
      foldl (fun acc task =>
        foldl (fun '(versions, variants, tasks) test =>
                 if negb (Contains test testName)
                 then (versions, variants, tasks)
                 else (bump (VersionID info) versions,
                       bump (DisplayName variant) variants,
                       bump (Task task) tasks))
              acc (FailedTests task))
        acc (FailedTasks variant))
      acc (FailedVariants info))
    (∅, ∅, ∅) infos.

Definition by_v (a b : string * Z) : bool := (a.2 >? b.2)%Z.

Section reporters.

Context (range_map : range_fn) (sort_Slice : sort_fn).

(** The rows [topfail] prints under the header, for the report tree that
    [getInfos] returned. *)
Definition topfail_rows (infos : list revisionInfo) (limit : Z) : list row :=
  let tests := aggregate infos in
  let testInfos := (range_map _ tests).*2 in
  let testInfos := sort_Slice _ by_TotalFailures testInfos in
  let testInfos := truncate limit testInfos in
  (fun info => (TotalFailures info, Test info)) <$> testInfos.

(** The rows [printColumns] prints under its header. *)
Definition printColumns (rows : gmap string Z) : list row :=
  let tup := range_map _ rows in
  let tup := sort_Slice _ by_v tup in
  (fun t => (t.2, t.1)) <$> tup.

(** The three tables of [failstats], in the order they are printed. *)
Definition failstats_tables (infos : list revisionInfo) (testName : string)
  : list (list row) :=
  let '(versions, variants, tasks) := tally testName infos in
  [printColumns versions; printColumns variants; printColumns tasks].

End reporters.

(** The rows of all aggregated tests, one per distinct name, and the rows
    of all entries of a counter. *)
Definition aggregated_rows (infos : list revisionInfo) : list row :=
  (fun kv => (TotalFailures kv.2, Test kv.2)) <$> map_to_list (aggregate infos).

Definition counted_rows (rows : gmap string Z) : list row :=
  (fun kv => (kv.2, kv.1)) <$> map_to_list rows.

Definition counters (testName : string) (infos : list revisionInfo)
  : list (gmap string Z) :=
  let '(versions, variants, tasks) := tally testName infos in
  [versions; variants; tasks].

(** Descending order of count: a row's count is at least the count of the
    row after it. *)
Definition count_ge (r1 r2 : row) : Prop := (r2.1 <= r1.1)%Z.

(** *** A report tree for the examples

    One version, one variant, two tasks.  The filter keeps TestA and TestB
    of the first task and TestB of the second, so two names are aggregated:
    TestB with count 2 and TestA with count 1. *)
Definition sample_infos : list revisionInfo :=
  [ {| VersionID := "v1"; Created := 0; Revision := "r1"; Message := "m";
       FailedVariants :=
         [ {| DisplayName := "linux";
              FailedTasks :=
                [ {| Task := "unit";
                     FailedTests := ["TestB"; "TestA"; "TestC"] |};
                  {| Task := "race";
                     FailedTests := ["TestB"; "TestZ"] |} ] |} ] |} ].

(** *** The GraphQL helper and the report fetcher (main.go)

    The types [getInfos] declares to unmarshal the responses.  The
    [mainlineCommits] response is carried as the list of its
    [versions[i].version] objects, the [taskTestSample] response as the
    list under [data.taskTestSample]. *)
Module taskRes.
Record t := {
  DisplayName : string;
  Execution : Z;
  ID : string;
  Status : string
}.
End taskRes.

Module buildVariant.
Record t := {
  DisplayName : string;
  Tasks : list taskRes.t
}.
End buildVariant.

Module versionRes.
Record t := {
  ID : string;
  Revision : string;
  Message : string;
  BuildVariants : list buildVariant.t;
  CreateTime : Z
}.
End versionRes.

Module taskTestSample.
Record t := {
  Execution : Z;
  MatchingFailedTestNames : list string;
  TaskID : string;
  TotalTestCount : Z
}.
End taskTestSample.

(** The two query texts and the variables sent with each; of the variables
    only the parts that vary are kept. *)
Inductive queryText := mainlineFailuresQuery | taskTestSampleQuery.

Inductive variables :=
| mainlineFailuresVars (projectIdentifier : string) (limit : Z)
| taskTestSampleVars (versionId : string) (taskIds : list string).

Record request := {
  req_user : string;
  req_apiKey : string;
  req_query : queryText;
  req_variables : variables
}.

(** What one round trip gives: [http.DefaultClient.Do] fails, or it
    returns a response with a status code and [io.ReadAll] of its body
    fails or returns the bytes. *)
Inductive reply :=
| DoFailed
| ReadFailed (StatusCode : Z)
| Body (StatusCode : Z) (data : string).

(** The network answers the n-th request of a run. *)
Definition network := nat -> request -> reply.

(** [json.Unmarshal], at the three types it is called with.  [None] is a
    non-nil error.  An entry of [errors] is a [map[string]any]; it is kept
    as text, only the number of entries is looked at. *)
Record json := {
  Unmarshal_errRes : string -> option (list string);
  Unmarshal_mainlineCommits : string -> option (list versionRes.t);
  Unmarshal_taskTestSample : string -> option (list taskTestSample.t)
}.

(** The errors of [graphql] and of [getInfos], by the message that wraps
    them.  [json.Marshal] of the variables and [http.NewRequestWithContext]
    with the fixed method and URL cannot fail; their two error returns are
    left out. *)
Inductive graphqlError :=
| errQuerying
| errReading
| errUnmarshalingToCheck
| errAPIReturnedErrors (errors : list string).

Inductive getInfosError :=
| errQueryingMainlineCommits (err : graphqlError)
| errUnmarshalingMainlineCommits
| errQueryingTaskTestSample (err : graphqlError)
| errUnmarshalingTaskTestSample.

(** A computation sends requests and returns a value or an error.  The
    state is the log of the round trips made so far. *)
Inductive result (E A : Type) :=
| Ok (a : A)
| Err (e : E).
Arguments Ok {E A} a.
Arguments Err {E A} e.

Definition is_Err {E A} (r : result E A) : Prop :=
  match r with Ok _ => False | Err _ => True end.

Definition exchange : Type := request * reply.

Definition M (E A : Type) : Type := list exchange -> result E A * list exchange.

#[export] Instance M_ret {E} : MRet (M E) := fun A a log => (Ok a, log).

#[export] Instance M_bind {E} : MBind (M E) := fun A B f m log =>
  match m log with
  | (Ok a, log) => f a log
  | (Err e, log) => (Err e, log)
  end.

Definition fail {E A} (e : E) : M E A := fun log => (Err e, log).

(** [if err != nil { return nil, fmt.Errorf("...: %w", err) }] *)
Definition wrapping {E E' A} (wrap : E -> E') (m : M E A) : M E' A := fun log =>
  match m log with
  | (Ok a, log) => (Ok a, log)
  | (Err e, log) => (Err (wrap e), log)
  end.

(** [err = json.Unmarshal(data, &v); if err != nil { return nil, ... }] *)
Definition unmarshal {E A} (decoded : option A) (e : E) : M E A :=
  match decoded with
  | Some v => mret v
  | None => fail e
  end.

(** A loop whose body may return early with an error. *)
Fixpoint forM {E A B} (l : list A) (body : A -> M E B) : M E (list B) :=
  match l with
  | [] => mret []
  | a :: l => b ← body a; bs ← forM l body; mret (b :: bs)
  end.

Section fetcher.

Context (range_map : range_fn) (js : json) (net : network).

(** One round trip. *)
Definition Do (req : request) : M graphqlError reply := fun log =>
  let r := net (length log) req in (Ok r, log ++ [(req, r)]).

(** The status code of the response is never read. *)
Definition graphql (user apiKey : string) (query : queryText)
    (variables : variables) : M graphqlError string :=
  res ← Do {| req_user := user; req_apiKey := apiKey;
              req_query := query; req_variables := variables |};
  match res with
  | DoFailed => fail errQuerying
  | ReadFailed _ => fail errReading
  | Body _ data =>
      errRes ← unmarshal (Unmarshal_errRes js data) errUnmarshalingToCheck;
      if (Z.of_nat (length errRes) >? 0)%Z
      then fail (errAPIReturnedErrors errRes)
      else mret data
  end.

(** The task ids are the keys of a map, listed in the order ranging over
    it gives. *)
Definition getInfos (user apiKey projectID : string) (versions : Z)
  : M getInfosError (list revisionInfo) :=
  resJSON ← wrapping errQueryingMainlineCommits
    (graphql user apiKey mainlineFailuresQuery
       (mainlineFailuresVars projectID versions));
  res ← unmarshal (Unmarshal_mainlineCommits js resJSON)
                  errUnmarshalingMainlineCommits;
  forM res (fun ver =>
    failedVariants ← forM (versionRes.BuildVariants ver) (fun variant =>
      let taskIDs : gmap string string :=
        foldl (fun taskIDs t => <[taskRes.ID t := taskRes.DisplayName t]> taskIDs)
              ∅ (buildVariant.Tasks variant) in
      resJSON ← wrapping errQueryingTaskTestSample
        (graphql user apiKey taskTestSampleQuery
           (taskTestSampleVars (versionRes.ID ver) (range_map _ taskIDs).*1));
      res ← unmarshal (Unmarshal_taskTestSample js resJSON)
                      errUnmarshalingTaskTestSample;
      let failedTasks :=
        (fun sample =>
           {| Task := default "" (taskIDs !! taskTestSample.TaskID sample);
              FailedTests := taskTestSample.MatchingFailedTestNames sample |})
          <$> res in
      mret {| DisplayName := buildVariant.DisplayName variant;
              FailedTasks := failedTasks |});
    mret {| VersionID := versionRes.ID ver;
            Created := versionRes.CreateTime ver;
            Revision := versionRes.Revision ver;
            Message := versionRes.Message ver;
            FailedVariants := failedVariants |}).

End fetcher.

(** The ways a round trip can make the fetcher fail: the transport fails
    (sending, or reading the body), the body carries GraphQL errors, or the
    body does not deserialize (when checked for errors, or into the type
    the query is answered with). *)
Inductive failure := Transport | GraphQLErrors | Deserialization.

Definition deserializes (js : json) (query : queryText) (data : string) : bool :=
  match query with
  | mainlineFailuresQuery => bool_decide (is_Some (Unmarshal_mainlineCommits js data))
  | taskTestSampleQuery => bool_decide (is_Some (Unmarshal_taskTestSample js data))
  end.

Definition failure_of (js : json) (x : exchange) : option failure :=
  match x.2 with
  | DoFailed | ReadFailed _ => Some Transport
  | Body _ data =>
      match Unmarshal_errRes js data with
      | None => Some Deserialization
      | Some [] =>
          if deserializes js (req_query x.1) data then None
          else Some Deserialization
      | Some (_ :: _) => Some GraphQLErrors
      end
  end.

(** The same network with every status code replaced. *)
Definition restatus (f : Z -> Z) (net : network) : network := fun n req =>
  match net n req with
  | DoFailed => DoFailed
  | ReadFailed status => ReadFailed (f status)
  | Body status data => Body (f status) data
  end.

(** Every round trip of a run that returns a value is free of failures,
    and a run that returns an error has made a round trip with one. *)
Definition accounted (js : json) {E A} (m : M E A) : Prop :=
  forall log, exists new,
    (m log).2 = log ++ new /\
    match (m log).1 with
    | Ok _ => Forall (fun x => failure_of js x = None) new
    | Err _ => Exists (fun x => is_Some (failure_of js x)) new
    end.

(** For the examples: [encoding/json] on the two bodies they use.  The
    empty object has no [errors] and no [data]: it unmarshals at the three
    types with every field at its zero value.  The other body is an object
    whose [errors] member is an array of one empty object.  This decoder
    rejects every other body. *)
Definition errors_body : string :=
  let q := String (Ascii.ascii_of_nat 34) "" in
  "{" +:+ q +:+ "errors" +:+ q +:+ ":[{}]}".

Definition json_of_examples : json := {|
  Unmarshal_errRes data :=
    if decide (data = "{}") then Some []
    else if decide (data = errors_body) then Some ["{}"] else None;
  Unmarshal_mainlineCommits data :=
    if decide (data = "{}") then Some []
    else if decide (data = errors_body) then Some [] else None;
  Unmarshal_taskTestSample data :=
    if decide (data = "{}") then Some []
    else if decide (data = errors_body) then Some [] else None
|}.

(** A server that answers every request with status 500 and the empty
    object, and one that answers with status 200 and the errors. *)
Definition server_error : network := fun _ _ => Body 500 "{}".

Definition server_graphql_errors : network := fun _ _ => Body 200 errors_body.

(** The failure an error of [getInfos] reports. *)
Definition kind_of (e : getInfosError) : failure :=
  match e with
  | errQueryingMainlineCommits err | errQueryingTaskTestSample err =>
      match err with
      | errQuerying | errReading => Transport
      | errUnmarshalingToCheck => Deserialization
      | errAPIReturnedErrors _ => GraphQLErrors
      end
  | errUnmarshalingMainlineCommits | errUnmarshalingTaskTestSample =>
      Deserialization
  end.

(** A run stops at its first failure: the round trips of a run that returns
    a value are free of failures, and a run that returns an error ends with
    the round trip that has the failure the error reports. *)
Definition stops_at_failure (js : json) {A} (m : M getInfosError A) : Prop :=
  forall log, exists new,
    (m log).2 = log ++ new /\
    match (m log).1 with
    | Ok _ => Forall (fun x => failure_of js x = None) new
    | Err e =>
        exists before x,
          new = before ++ [x] /\
          Forall (fun x => failure_of js x = None) before /\
          failure_of js x = Some (kind_of e)
    end.

(** The name [getInfos] gives the task of a sample: the display name of the
    last task of the variant with the sample's id, or the empty name when
    the variant has no such task. *)
Definition task_name (variant : buildVariant.t) (id : string) : string :=
  default ""
    (taskRes.DisplayName
       <$> last (filter (fun t => taskRes.ID t = id) (buildVariant.Tasks variant))).

(** The request [getInfos] makes for a build variant of a version: the
    sample query, for the version's id and the ids of the variant's tasks
    in the order ranging over the map of ids gives. *)
Definition sample_request (range_map : range_fn) (user apiKey : string)
    (ver : versionRes.t) (variant : buildVariant.t) : request :=
  {| req_user := user; req_apiKey := apiKey;
     req_query := taskTestSampleQuery;
     req_variables :=
       taskTestSampleVars (versionRes.ID ver)
         (range_map _
            (foldl (fun taskIDs t =>
                      <[taskRes.ID t := taskRes.DisplayName t]> taskIDs)
                   (∅ : gmap string string) (buildVariant.Tasks variant))).*1 |}.

(** How the tree returned mirrors the round trips.  For a build variant:
    the round trip [x] is the variant's request, answered by a body that
    unmarshals to samples, and the [variantInfo] has the variant's display
    name and one task for each of those samples, in order, with the
    sample's failed test names.  For a version: one such round trip and
    one [variantInfo] for each of its build variants, in order. *)
Definition mirrors_variant (range_map : range_fn) (js : json)
    (user apiKey : string) (ver : versionRes.t)
    (variant : buildVariant.t) (x : exchange) (v : variantInfo) : Prop :=
  x.1 = sample_request range_map user apiKey ver variant /\
  exists status data samples,
    x.2 = Body status data /\
    Unmarshal_taskTestSample js data = Some samples /\
    v = {| DisplayName := buildVariant.DisplayName variant;
           FailedTasks :=
             (fun sample =>
                {| Task := task_name variant (taskTestSample.TaskID sample);
                   FailedTests :=
                     taskTestSample.MatchingFailedTestNames sample |})
               <$> samples |}.

Definition mirrors_version (range_map : range_fn) (js : json)
    (user apiKey : string)
    (ver : versionRes.t) (xs : list exchange) (info : revisionInfo) : Prop :=
  VersionID info = versionRes.ID ver /\
  Created info = versionRes.CreateTime ver /\
  Revision info = versionRes.Revision ver /\
  Message info = versionRes.Message ver /\
  Forall3 (mirrors_variant range_map js user apiKey ver)
          (versionRes.BuildVariants ver) xs (FailedVariants info).

(** A log that records the round trips as they were made: its i-th entry
    holds the answer of the network to the i-th request. *)
Definition faithful (net : network) (log : list exchange) : Prop :=
  forall i x, log !! i = Some x -> x.2 = net i x.1.

(** A canned transport for the examples.  The bodies are named, not spelled
    out: "versions" stands for a response with one version of two build
    variants, "samples" for a response with one sample, "garbage" for bytes
    that are not JSON.  The server answers the first request with the
    versions; after that it answers with the samples, or with garbage. *)
Definition canned_versions : list versionRes.t :=
  [ {| versionRes.ID := "v1"; versionRes.Revision := "r1";
       versionRes.Message := "m"; versionRes.CreateTime := 0;
       versionRes.BuildVariants :=
         [ {| buildVariant.DisplayName := "linux";
              buildVariant.Tasks :=
                [ {| taskRes.DisplayName := "unit"; taskRes.Execution := 0;
                     taskRes.ID := "t1"; taskRes.Status := "failed" |} ] |};
           {| buildVariant.DisplayName := "macos";
              buildVariant.Tasks := [] |} ] |} ].

Definition canned_samples : list taskTestSample.t :=
  [ {| taskTestSample.Execution := 0;
       taskTestSample.MatchingFailedTestNames := ["TestA"; "TestB"];
       taskTestSample.TaskID := "t1";
       taskTestSample.TotalTestCount := 2 |} ].

Definition json_canned : json := {|
  Unmarshal_errRes data := if decide (data = "garbage") then None else Some [];
  Unmarshal_mainlineCommits data :=
    if decide (data = "versions") then Some canned_versions else None;
  Unmarshal_taskTestSample data :=
    if decide (data = "samples") then Some canned_samples else None
|}.

Definition server_canned : network := fun n _ =>
  match n with
  | O => Body 200 "versions"
  | S _ => Body 200 "samples"
  end.

Definition server_garbled : network := fun n _ =>
  match n with
  | O => Body 200 "versions"
  | S O => Body 200 "samples"
  | S (S _) => Body 200 "garbage"
  end.

(** *** The two commands (topfail.go and the failstats file)

    What the commands use of the machine and of the evergreen client
    library: the settings file (its user, its API key and its table of
    default projects by directory), the working directory, the resolution
    of symbolic links, and whether the table written to standard output
    could be flushed. *)
Record ClientSettings := {
  User : string;
  APIKey : string;
  FindDefaultProject : string -> string
}.

Record host := {
  NewClientSettings : string -> option ClientSettings;
  Getwd : option string;
  EvalSymlinks : string -> option string;
  Flush : bool
}.

Inductive actionError :=
| errLoadingConfiguration
| errGettingCwd
| errEvaluatingSymlinks
| errNeedProject
| errGettingRevisionInfo (err : getInfosError)
| errFlush.

(** [v, err := f(); if err != nil { return fmt.Errorf(...) }] *)
Definition attempt {E A} (r : option A) (e : E) : M E A :=
  match r with
  | Some v => mret v
  | None => fail e
  end.

Section commands.

Context (range_map : range_fn) (sort_Slice : sort_fn).
Context (js : json) (net : network) (h : host).

(** The [Action] of [topfail]: its value is the rows printed. *)
Definition topfail_Action (confPath projectID : string) (versions limit : Z)
  : M actionError (list row) :=
  conf ← attempt (NewClientSettings h confPath) errLoadingConfiguration;
  projectID ←
    (if decide (projectID = "") then
       cwd ← attempt (Getwd h) errGettingCwd;
       cwd ← attempt (EvalSymlinks h cwd) errEvaluatingSymlinks;
       mret (FindDefaultProject conf cwd)
     else mret projectID);
  if decide (projectID = "") then fail errNeedProject else
  infos ← wrapping errGettingRevisionInfo
    (getInfos range_map js net (User conf) (APIKey conf) projectID versions);
  let rows := topfail_rows range_map sort_Slice infos limit in
  if Flush h then mret rows else fail errFlush.

(** The [Action] of [failstats]: its value is the three tables printed.
    The flag read into [limit] is the number of versions.  The results of
    flushing the tables are dropped and the action returns nil. *)
Definition failstats_Action (confPath projectID testName : string) (limit : Z)
  : M actionError (list (list row)) :=
  conf ← attempt (NewClientSettings h confPath) errLoadingConfiguration;
  projectID ←
    (if decide (projectID = "") then
       cwd ← attempt (Getwd h) errGettingCwd;
       cwd ← attempt (EvalSymlinks h cwd) errEvaluatingSymlinks;
       mret (FindDefaultProject conf cwd)
     else mret projectID);
  if decide (projectID = "") then fail errNeedProject else
  infos ← wrapping errGettingRevisionInfo
    (getInfos range_map js net (User conf) (APIKey conf) projectID limit);
  mret (failstats_tables range_map sort_Slice infos testName).

End commands.

(** The settings and the project the commands query: the settings load,
    and the project is the flag when the flag is not empty, else the
    default project the settings have for the working directory with its
    symbolic links resolved; it is not empty. *)
Definition resolves (h : host) (confPath projectID : string)
    (conf : ClientSettings) (project : string) : Prop :=
  NewClientSettings h confPath = Some conf /\
  project <> "" /\
  ((projectID <> "" /\ project = projectID) \/
   (projectID = "" /\
    exists cwd cwd',
      Getwd h = Some cwd /\ EvalSymlinks h cwd = Some cwd' /\
      project = FindDefaultProject conf cwd')).

(** The errors returned before any request. *)
Definition before_fetching (e : actionError) : Prop :=
  match e with
  | errLoadingConfiguration | errGettingCwd | errEvaluatingSymlinks
  | errNeedProject => True
  | errGettingRevisionInfo _ | errFlush => False
  end.

(** A machine whose settings have a default project for every directory. *)
Definition host_with_default : host := {|
  NewClientSettings _ :=
    Some {| User := "user"; APIKey := "key";
            FindDefaultProject _ := "project" |};
  Getwd := Some "/src";
  EvalSymlinks cwd := Some cwd;
  Flush := true
|}.

(** A machine for the examples: the settings load and know no default
    project, the working directory resolves. *)
Definition host_without_default : host := {|
  NewClientSettings _ :=
    Some {| User := "user"; APIKey := "key"; FindDefaultProject _ := "" |};
  Getwd := Some "/src";
  EvalSymlinks cwd := Some cwd;
  Flush := true
|}.

(** A report tree in which every task has one failed test. *)
Definition lone_infos : list revisionInfo :=
  [ {| VersionID := "v1"; Created := 0; Revision := "r1"; Message := "m";
       FailedVariants :=
         [ {| DisplayName := "linux";
              FailedTasks :=
                [ {| Task := "unit"; FailedTests := ["TestA"] |};
                  {| Task := "race"; FailedTests := ["TestA"] |} ] |} ] |} ].

(** *** agg: operator builders (operator.go)

    A value of type [any] that ends up in a document: nil, a scalar, an
    array [bson.A], a document [bson.D], or an [Operator] built by this
    package (a type of its own over [bson.D]). *)
Module agg.

Local Set Warnings "-register-all".

Inductive any : Type :=
| Nil
| Bool (b : bool)
| Int (n : Z)
| Str (s : string)
| bson_A (items : list any)
| bson_D (elems : list (string * any))
| Op (elems : list (string * any)).

#[export] Instance any_inhabited : Inhabited any := populate Nil.

(** [Operator] is [bson.D]: a sequence of elements, each a key and a value. *)
Definition Operator : Type := list (string * any).

(** The arguments of a variadic call arrive as one slice. *)
Definition Max (exprs : list any) : Operator :=
  let body :=
    if (Z.of_nat (length exprs) =? 1)%Z then exprs !!! 0%nat
    else bson_A exprs in
  [("$max", body)].

Definition Min (exprs : list any) : Operator :=
  let body :=
    if (Z.of_nat (length exprs) =? 1)%Z then exprs !!! 0%nat
    else bson_A exprs in
  [("$min", body)].

Definition MergeObjects (documentExprs : list any) : Operator :=
  let body :=
    if (Z.of_nat (length documentExprs) =? 1)%Z then documentExprs !!! 0%nat
    else bson_A documentExprs in
  [("$mergeObjects", body)].

(** [bson.E], and the two types over it (agg.go): a field with its
    expression, a field with its sort order. *)
Definition E : Type := string * any.
Definition FieldExpr : Type := E.
Definition SortBy : Type := E.

Definition Field (name : string) (expr : any) : FieldExpr := (name, expr).
Definition SortAscending (fieldName : string) : SortBy := (fieldName, Int 1).
Definition SortDescending (fieldName : string) : SortBy := (fieldName, Int (-1)).
Definition SortExpr (fieldName : string) (expr : any) : SortBy := (fieldName, expr).

(** [d := make(bson.D, len(sorts))], then [d[i] = bson.E(sorts[i])] for each
    index: the document starts as that many zero elements and is written
    index by index. *)
Definition sortBysToD (sorts : list SortBy) : list E :=
  foldl (fun d i => <[i := sorts !!! i]> d)
        (replicate (length sorts) ("", Nil))
        (seq 0 (length sorts)).

(** Operators with a sort order (operator.go). *)
Definition Top (outputExpr : any) (sortBy : list SortBy) : Operator :=
  [("$top", bson_D [("sortBy", bson_D (sortBysToD sortBy));
                    ("output", outputExpr)])].

Definition Bottom (outputExpr : any) (sortBys : list SortBy) : Operator :=
  [("$bottom", bson_D [("sortBy", bson_D (sortBysToD sortBys));
                       ("output", outputExpr)])].

(** [as] and [limit] are optional: [as] is left out when it is the empty
    string, [limit] when it is nil.  ([as] is [as_] here, the word being
    reserved.) *)
Definition Filter (inputExpr : any) (as_ : string) (condExpr limitExpr : any)
  : Operator :=
  let body := [("input", inputExpr); ("cond", condExpr)] in
  let body :=
    if (Z.of_nat (String.length as_) >? 0)%Z then body ++ [("as", Str as_)]
    else body in
  let body :=
    match limitExpr with
    | Nil => body
    | _ => body ++ [("limit", limitExpr)]
    end in
  [("$filter", bson_D body)].

(** Stages (stage.go).  A [Stage] is a [bson.D]. *)
Definition Stage : Type := list E.

Definition AddFields (fields : list FieldExpr) : Stage :=
  let body := foldl (fun body field => body ++ [field]) [] fields in
  [("$addFields", bson_D body)].

Definition Group (key : any) (accumulators : list FieldExpr) : Stage :=
  let body := [("_id", key)] in
  let body := foldl (fun body acc => body ++ [acc]) body accumulators in
  [("$group", bson_D body)].

Definition Project (specifications : list FieldExpr) : Stage :=
  let body := foldl (fun body spec => body ++ [spec]) [] specifications in
  [("$project", bson_D body)].

Definition Sort (sortBys : list SortBy) : Stage :=
  [("$sort", bson_D (sortBysToD sortBys))].

End agg.

(** *** What the reporters count

    The loops of [topfail] meet one failure for each name the filter
    returns for each task, in this order: the revision, the task, the test.
    The loops of [failstats] meet one match for each failed test of each
    task whose name contains [testName]: the version, the variant, the
    task. *)
Definition failures (infos : list revisionInfo) : list (string * string * string) :=
  info ← infos; variant ← FailedVariants info; task ← FailedTasks variant;
  (fun test => (Revision info, Task task, test))
    <$> (filterTests (FailedTests task)).2.

Definition matches (testName : string) (infos : list revisionInfo)
  : list (string * string * string) :=
  info ← infos; variant ← FailedVariants info; task ← FailedTasks variant;
  (fun _ => (VersionID info, DisplayName variant, Task task))
    <$> filter (fun test => Contains test testName = true) (FailedTests task).

(** A counter that was incremented [n] times from a missing key. *)
Definition counted (n : nat) : option Z :=
  match n with
  | O => None
  | S _ => Some (wrap_int (Z.of_nat n))
  end.

(** What the entry of [test] in the map of [topfail] is, after the failures
    [fs]: missing when [test] did not fail, else the count of its failures,
    and for each revision the tasks it failed in, in the order met, and
    their number. *)
Definition aggregate_entry (fs : list (string * string * string))
    (test : string) (entry : option failedTestInfo) : Prop :=
  let mine := filter (fun f => f.2 = test) fs in
  match entry with
  | None => mine = []
  | Some info =>
      mine <> [] /\
      Test info = test /\
      TotalFailures info = wrap_int (Z.of_nat (length mine)) /\
      forall revision,
        let here := filter (fun f => f.1.1 = revision) mine in
        FailedTasksPerRevision info !! revision
          = (if decide (here = []) then None else Some ((fun f => f.1.2) <$> here))
        /\ FailuresPerRevision info !! revision = counted (length here)
  end.

(** ** Part II: properties *)

Section filterTests_facts.

Lemma less_string_le x y : less_string x y = false <-> String.le y x.
Proof.
  unfold less_string, String.le, String.ltb, String.leb.
  rewrite (String.compare_antisym y x).
  destruct (String.compare x y); simpl; split; done.
Qed.

Lemma less_string_true_le x y : less_string x y = true -> String.le x y.
Proof.
  unfold less_string, String.le, String.ltb, String.leb.
  destruct (String.compare x y); simpl; done.
Qed.

Lemma insert_by_Permutation {T} (less : T -> T -> bool) x l :
  insert_by less x l ≡ₚ x :: l.
Proof.
  induction l as [|y l IH]; simpl; [done|].
  destruct (less x y); [done|].
  rewrite IH. apply Permutation_swap.
Qed.

Lemma insert_by_HdRel {T} (less : T -> T -> bool) a x l :
  less x a = false ->
  HdRel (fun a b => less b a = false) a l ->
  HdRel (fun a b => less b a = false) a (insert_by less x l).
Proof.
  intros Hax Hl. destruct l as [|y l]; simpl.
  - by constructor.
  - inversion_clear Hl. destruct (less x y); by constructor.
Qed.

Lemma insert_by_Sorted {T} (less : T -> T -> bool) x l :
  (forall a b, less a b = true -> less b a = false) ->
  Sorted (fun a b => less b a = false) l ->
  Sorted (fun a b => less b a = false) (insert_by less x l).
Proof.
  intros Hasym. induction 1 as [|y l Hl IH Hy]; simpl.
  - by repeat constructor.
  - destruct (less x y) eqn:Hxy.
    + repeat constructor; auto.
    + constructor; [done|]. by apply insert_by_HdRel.
Qed.

Lemma insertion_sort_aux {T} (less : T -> T -> bool) acc l :
  foldl (fun sorted x => insert_by less x sorted) acc l ≡ₚ acc ++ l /\
  ((forall a b, less a b = true -> less b a = false) ->
   Sorted (fun a b => less b a = false) acc ->
   Sorted (fun a b => less b a = false)
          (foldl (fun sorted x => insert_by less x sorted) acc l)).
Proof.
  revert acc. induction l as [|x l IH]; intros acc; simpl.
  - by rewrite app_nil_r.
  - destruct (IH (insert_by less x acc)) as [Hp Hs]. split.
    + rewrite Hp, insert_by_Permutation. simpl. apply Permutation_middle.
    + intros Hasym Hacc. by apply Hs, insert_by_Sorted.
Qed.

Lemma insertion_sort_Permutation {T} (less : T -> T -> bool) l :
  insertion_sort less l ≡ₚ l.
Proof. apply (insertion_sort_aux less [] l). Qed.

Lemma insertion_sort_Sorted {T} (less : T -> T -> bool) l :
  (forall a b, less a b = true -> less b a = false) ->
  Sorted (fun a b => less b a = false) (insertion_sort less l).
Proof. intros H. apply (insertion_sort_aux less [] l); [done|constructor]. Qed.

Lemma less_string_asym a b : less_string a b = true -> less_string b a = false.
Proof. intros H. by apply less_string_le, less_string_true_le. Qed.

Lemma sort_Strings_Permutation l : sort_Strings l ≡ₚ l.
Proof. apply insertion_sort_Permutation. Qed.

Lemma sort_Strings_Sorted l : Sorted String.le (sort_Strings l).
Proof.
  rewrite <- (list_fmap_id (sort_Strings l)).
  eapply (Sorted_fmap id); [|apply insertion_sort_Sorted, less_string_asym].
  intros a b. apply less_string_le.
Qed.

(** Any sorting algorithm returns what [sort_Strings] returns. *)
Lemma sort_Strings_unique l l' :
  Sorted String.le l' -> l' ≡ₚ l -> l' = sort_Strings l.
Proof.
  intros Hs Hp. apply (Sorted_unique String.le); [done|apply sort_Strings_Sorted|].
  by rewrite sort_Strings_Permutation.
Qed.

Lemma sort_Strings_sorted_id l : Sorted String.le l -> sort_Strings l = l.
Proof. intros Hs. symmetry. by apply sort_Strings_unique. Qed.

Lemma string_app_cons a (p t : string) : String a p +:+ t = String a (p +:+ t).
Proof. reflexivity. Qed.

Lemma HasPrefix_spec s p : HasPrefix s p = true <-> exists t, s = p +:+ t.
Proof.
  unfold HasPrefix. revert s. induction p as [|a p IH]; intros s.
  - destruct s; split; eauto.
  - destruct s as [|b s]; cbn [String.prefix].
    + split; [done|]. intros [t Ht]. by rewrite string_app_cons in Ht.
    + destruct (Ascii.ascii_dec a b) as [->|Hne].
      * rewrite IH. split; intros [t Ht]; exists t;
          rewrite string_app_cons in *; congruence.
      * split; [done|]. intros [t Ht]. rewrite string_app_cons in Ht.
        congruence.
Qed.

Lemma string_app_assoc (x y z : string) : (x +:+ y) +:+ z = x +:+ (y +:+ z).
Proof.
  induction x as [|a x IH]; [done|]. rewrite !string_app_cons. by f_equal.
Qed.

Lemma HasPrefix_strict_ancestor x y :
  HasPrefix y (x +:+ "/") = true <-> strict_ancestor x y.
Proof.
  rewrite HasPrefix_spec. unfold strict_ancestor.
  split; intros [t Ht]; exists t; rewrite Ht.
  - apply string_app_assoc.
  - symmetry. apply string_app_assoc.
Qed.

(** The index loop of [filterTests] and the recursion [scan] agree. *)
Lemma filterTests_loop_scan pre l acc :
  foldl (filterTests_step (pre ++ l)) acc (seq (length pre) (length l))
  = acc ++ scan l.
Proof.
  revert pre acc. induction l as [|x l IH]; intros pre acc.
  - simpl. by rewrite app_nil_r.
  - cbn [length seq foldl].
    assert (Hi : (pre ++ x :: l) !!! length pre = x).
    { apply list_lookup_total_correct. by rewrite list_lookup_middle. }
    assert (Hstep : filterTests_step (pre ++ x :: l) acc (length pre)
                    = match l with
                      | [] => acc
                      | y :: _ =>
                          if HasPrefix y (x +:+ "/") then acc else acc ++ [x]
                      end).
    { unfold filterTests_step. rewrite Hi, length_app.
      destruct l as [|y l]; cbn [length].
      - destruct (Z.geb_spec (Z.of_nat (length pre))
                    (Z.of_nat (length pre + 1) - 1)) as [_|Hlt]; [done|lia].
      - replace ((pre ++ x :: y :: l) !!! (length pre + 1)) with y.
        2:{ symmetry. apply list_lookup_total_correct.
            replace (pre ++ x :: y :: l) with ((pre ++ [x]) ++ y :: l)
              by by rewrite <- app_assoc.
            apply list_lookup_middle. rewrite length_app. simpl. lia. }
        destruct (Z.geb_spec (Z.of_nat (length pre))
                    (Z.of_nat (length pre + S (S (length l))) - 1))
          as [Hge|_]; [lia|done]. }
    rewrite Hstep.
    replace (pre ++ x :: l) with ((pre ++ [x]) ++ l) by by rewrite <- app_assoc.
    replace (S (length pre)) with (length (pre ++ [x]))
      by (rewrite length_app; simpl; lia).
    rewrite IH.
    destruct l as [|y l]; [done|].
    cbn [scan]. destruct (HasPrefix y (x +:+ "/")); [done|].
    by rewrite <- app_assoc.
Qed.

Lemma filterTests_scan tests :
  filterTests tests = (sort_Strings tests, scan (sort_Strings tests)).
Proof.
  unfold filterTests. f_equal.
  apply (filterTests_loop_scan [] (sort_Strings tests) []).
Qed.

Lemma scan_elem x l :
  x ∈ scan l ->
  exists l1 y l2, l = l1 ++ x :: y :: l2 /\ HasPrefix y (x +:+ "/") = false.
Proof.
  induction l as [|a l IH]; [by intros ?%elem_of_nil|].
  destruct l as [|b l]; [by intros ?%elem_of_nil|].
  cbn [scan]. destruct (HasPrefix b (a +:+ "/")) eqn:Hab.
  - intros (l1 & y & l2 & -> & Hy)%IH. by exists (a :: l1), y, l2.
  - intros [->|Hin]%elem_of_cons.
    + by exists [], b, l.
    + destruct (IH Hin) as (l1 & y & l2 & -> & Hy). by exists (a :: l1), y, l2.
Qed.

Lemma Sorted_middle_le (l1 : list string) x y l2 :
  Sorted String.le (l1 ++ x :: y :: l2) -> String.le x y.
Proof.
  induction l1 as [|a l1 IH]; simpl; intros Hs.
  - apply Sorted_inv in Hs as [_ Hd]. by inversion Hd.
  - apply IH. by apply Sorted_inv in Hs as [? _].
Qed.

Lemma scan_length l : l <> [] -> length (scan l) < length l.
Proof.
  induction l as [|a l IH]; [done|]. intros _.
  destruct l as [|b l]; [simpl; lia|].
  assert (length (scan (b :: l)) < length (b :: l)) by by apply IH.
  cbn [scan]. destruct (HasPrefix b (a +:+ "/")); simpl in *; lia.
Qed.

(** Every application to a non-empty result returns fewer names. *)
Lemma filterTests_shrinks tests :
  (filterTests tests).2 <> [] ->
  length (filterTests (filterTests tests).2).2 < length (filterTests tests).2.
Proof.
  intros Hne. rewrite (filterTests_scan (filterTests tests).2). cbn [snd].
  pose proof (sort_Strings_Permutation (filterTests tests).2) as Hp.
  rewrite <- (Permutation_length Hp).
  apply scan_length. intros Hnil.
  rewrite Hnil in Hp. apply Hne. symmetry. by apply Permutation_nil_l.
Qed.

End filterTests_facts.

(** *** The test-name prefix filter *)

Lemma filterTests_example_differs :
  (filterTests ["a"; "a/b"; "c"]).2 <> ["a"; "c"].
Proof. vm_compute. discriminate. Qed.

(** C1, as the code has it: on ["a"; "a/b"; "c"] the filter returns the
    child "a/b" and suppresses its parent "a". *)
Theorem filterTests_example :
  "a/b" ∈ (filterTests ["a"; "a/b"; "c"]).2 /\
  "a" ∉ (filterTests ["a"; "a/b"; "c"]).2.
Proof.
  replace (filterTests ["a"; "a/b"; "c"]).2 with ["a/b"] by by vm_compute.
  split; [by constructor|]. by intros [?|?%elem_of_nil]%elem_of_cons.
Qed.

Lemma filterTests_keeps_ancestor :
  ~ ancestor_free (filterTests ["TestA/x"; "TestA#01"; "TestA"; "TestB"]).2.
Proof.
  replace (filterTests ["TestA/x"; "TestA#01"; "TestA"; "TestB"]).2
    with ["TestA"; "TestA#01"; "TestA/x"] by by vm_compute.
  intros H. apply (H "TestA" "TestA/x").
  - set_solver.
  - set_solver.
  - by exists "x".
Qed.

(** C3, as the code has it: a returned name is never a strict ancestor of
    the name that follows it in the sorted input. *)
Theorem filterTests_next_not_child tests x :
  x ∈ (filterTests tests).2 ->
  exists l1 y l2,
    (filterTests tests).1 = l1 ++ x :: y :: l2 /\ ~ strict_ancestor x y.
Proof.
  rewrite filterTests_scan. cbn [fst snd].
  intros (l1 & y & l2 & Heq & Hy)%scan_elem.
  exists l1, y, l2. split; [done|].
  rewrite <- HasPrefix_strict_ancestor. by rewrite Hy.
Qed.

Lemma filterTests_next_not_child_witness :
  "a/b" ∈ (filterTests ["a"; "a/b"; "c"]).2 /\
  exists l1 y l2,
    (filterTests ["a"; "a/b"; "c"]).1 = l1 ++ "a/b" :: y :: l2 /\
    ~ strict_ancestor "a/b" y.
Proof.
  assert (H : "a/b" ∈ (filterTests ["a"; "a/b"; "c"]).2)
    by (vm_compute; constructor).
  split; [exact H|].
  exact (filterTests_next_not_child ["a"; "a/b"; "c"] "a/b" H).
Defined.

(** C5, at the failing input: the second application drops the name the
    first one returned. *)
Theorem filterTests_reapplied :
  (filterTests ["a"; "b"]).2 = ["a"] /\
  (filterTests (filterTests ["a"; "b"]).2).2 = [] /\
  (filterTests (filterTests ["a"; "b"]).2).2 <> (filterTests ["a"; "b"]).2.
Proof. by vm_compute. Qed.

Lemma filterTests_reorders_argument :
  (filterTests ["b"; "a"]).1 <> ["b"; "a"].
Proof. vm_compute. discriminate. Qed.

(** C9, as the code has it: the call sorts its argument in place.  After
    the call the argument holds the same names in increasing order, so it
    is unchanged exactly when it was sorted already. *)
Theorem filterTests_sorts_argument tests :
  (filterTests tests).1 ≡ₚ tests /\
  Sorted String.le (filterTests tests).1 /\
  ((filterTests tests).1 = tests <-> Sorted String.le tests).
Proof.
  rewrite filterTests_scan. cbn [fst].
  split; [apply sort_Strings_Permutation|].
  split; [apply sort_Strings_Sorted|].
  split.
  - intros <-. apply sort_Strings_Sorted.
  - apply sort_Strings_sorted_id.
Qed.

Lemma filterTests_returns_repeated_greatest :
  "a" ∈ ["a"; "a"] /\ Forall (fun x => String.le x "a") ["a"; "a"] /\
  "a" ∈ (filterTests ["a"; "a"]).2.
Proof.
  split; [by constructor|]. split; [by repeat constructor|].
  vm_compute. constructor.
Qed.

(** C10, as the code has it: a greatest name that occurs once in the input
    is never returned, and a one-name input gives the empty result. *)
Theorem filterTests_drops_greatest :
  (forall tests m,
      m ∈ tests -> Forall (fun x => String.le x m) tests ->
      length (filter (fun x => x = m) tests) = 1%nat ->
      m ∉ (filterTests tests).2) /\
  (forall x, (filterTests [x]).2 = []).
Proof.
  split; [|done].
  intros tests m Hm Hmax Hone. rewrite filterTests_scan. cbn [snd].
  intros (l1 & y & l2 & Heq & _)%scan_elem.
  pose proof (sort_Strings_Sorted tests) as Hs. rewrite Heq in Hs.
  pose proof (sort_Strings_Permutation tests) as Hp. rewrite Heq in Hp.
  assert (y = m) as ->.
  { apply (anti_symm String.le); [|by eapply Sorted_middle_le].
    rewrite Forall_forall in Hmax. apply Hmax. rewrite <- Hp.
    rewrite elem_of_app. right. by do 2 constructor. }
  rewrite <- Hp in Hone.
  rewrite filter_app, !filter_cons_True, length_app in Hone by done.
  simpl in Hone. lia.
Qed.

Lemma filterTests_drops_greatest_witness :
  "b" ∈ ["b"; "a"] /\ Forall (fun x => String.le x "b") ["b"; "a"] /\
  length (filter (fun x => x = "b") ["b"; "a"]) = 1%nat /\
  "b" ∉ (filterTests ["b"; "a"]).2.
Proof.
  assert (H1 : "b" ∈ ["b"; "a"]) by constructor.
  assert (H2 : Forall (fun x => String.le x "b") ["b"; "a"])
    by (repeat constructor).
  assert (H3 : length (filter (fun x => x = "b") ["b"; "a"]) = 1%nat)
    by reflexivity.
  split; [exact H1|]. split; [exact H2|]. split; [exact H3|].
  exact (proj1 filterTests_drops_greatest ["b"; "a"] "b" H1 H2 H3).
Defined.

(** *** The ranking reporters *)

Lemma by_TotalFailures_swo : strict_weak_order by_TotalFailures.
Proof.
  unfold by_TotalFailures.
  split; intros *; rewrite ?Z.gtb_ltb, ?Z.ltb_lt, ?Z.ltb_ge; lia.
Qed.

Lemma by_v_swo : strict_weak_order by_v.
Proof.
  unfold by_v.
  split; intros *; rewrite ?Z.gtb_ltb, ?Z.ltb_lt, ?Z.ltb_ge; lia.
Qed.

Lemma swo_asym {T} (less : T -> T -> bool) :
  strict_weak_order less -> forall a b, less a b = true -> less b a = false.
Proof.
  intros [Hirr Htr _] a b Hab. destruct (less b a) eqn:Hba; [|done].
  by rewrite <- (Hirr a), (Htr a b a).
Qed.

Lemma sort_Slice_short_contract : sort_contract sort_Slice_short.
Proof.
  split; intros T less x.
  - apply insertion_sort_Permutation.
  - intros Hswo. by apply insertion_sort_Sorted, swo_asym.
Qed.

Lemma range_as_stored_contract : range_contract range_as_stored.
Proof. by intros V m. Qed.

Lemma truncate_negative {T} (limit : Z) (l : list T) :
  (limit < 0)%Z -> truncate limit l = l.
Proof.
  intros Hneg. unfold truncate.
  destruct (Z.geb_spec limit 0); [lia|done].
Qed.

Lemma truncate_zero {T} (l : list T) : truncate 0 l = [].
Proof. unfold truncate. by destruct l. Qed.

Lemma truncate_fits {T} (limit : Z) (l : list T) :
  (Z.of_nat (length l) <= limit)%Z -> truncate limit l = l.
Proof.
  intros Hfit. unfold truncate.
  destruct (Z.gtb_spec (Z.of_nat (length l)) limit); [lia|].
  by rewrite andb_false_r.
Qed.

(** The slice is always cut at an index within range; the clamp to
    [len(testInfos) - 1] is never taken. *)
Lemma truncate_take {T} (limit : Z) (l : list T) :
  exists k, truncate limit l = take k l /\
    (k = length l \/ (Z.of_nat k = limit /\ k < length l)).
Proof.
  unfold truncate.
  destruct (Z.geb_spec limit 0) as [Hpos|_]; cbn [andb].
  2:{ exists (length l). by rewrite firstn_all; auto. }
  destruct (Z.gtb_spec (Z.of_nat (length l)) limit) as [Hgt|_].
  2:{ exists (length l). by rewrite firstn_all; auto. }
  destruct (Z.geb_spec limit (Z.of_nat (length l))); [lia|].
  exists (Z.to_nat limit). split; [done|]. right. lia.
Qed.

(** How many elements the slicing keeps: all of them under a negative
    limit, else the smaller of the limit and their number. *)
Lemma truncate_kept {T} (limit : Z) (l : list T) :
  length (truncate limit l)
  = if (limit <? 0)%Z then length l else Z.to_nat limit `min` length l.
Proof.
  unfold truncate.
  destruct (Z.ltb_spec limit 0) as [Hneg|Hpos];
    destruct (Z.geb_spec limit 0) as [Hge|Hlt]; try lia; cbn [andb]; [done|].
  destruct (Z.gtb_spec (Z.of_nat (length l)) limit) as [Hgt|Hle]; [|lia].
  destruct (Z.geb_spec limit (Z.of_nat (length l))); [lia|].
  rewrite length_take. lia.
Qed.

Section reporters_facts.

Context (range_map : range_fn) (sort_Slice : sort_fn).
Hypothesis range_ok : range_contract range_map.
Hypothesis sort_ok : sort_contract sort_Slice.

Lemma ranked_all infos :
  (fun info => (TotalFailures info, Test info)) <$>
    sort_Slice _ by_TotalFailures (range_map _ (aggregate infos)).*2
  ≡ₚ aggregated_rows infos.
Proof.
  unfold aggregated_rows.
  rewrite (sort_Slice_Permutation _ sort_ok), (range_ok _ (aggregate infos)).
  by rewrite <- list_fmap_compose.
Qed.

Lemma ranked_length infos :
  length (sort_Slice _ by_TotalFailures (range_map _ (aggregate infos)).*2)
  = size (aggregate infos).
Proof.
  rewrite (sort_Slice_Permutation _ sort_ok), length_fmap.
  rewrite (range_ok _ (aggregate infos)). apply length_map_to_list.
Qed.

Lemma ranked_Sorted infos :
  Sorted count_ge
    ((fun info => (TotalFailures info, Test info)) <$>
       sort_Slice _ by_TotalFailures (range_map _ (aggregate infos)).*2).
Proof.
  eapply Sorted_fmap; [|apply (sort_Slice_Sorted _ sort_ok), by_TotalFailures_swo].
  intros a b. unfold by_TotalFailures, count_ge. simpl.
  rewrite Z.gtb_ltb, Z.ltb_ge. lia.
Qed.

Lemma printColumns_Permutation rows :
  printColumns range_map sort_Slice rows ≡ₚ counted_rows rows.
Proof.
  unfold printColumns, counted_rows.
  by rewrite (sort_Slice_Permutation _ sort_ok), (range_ok _ rows).
Qed.

Lemma printColumns_Sorted rows :
  Sorted count_ge (printColumns range_map sort_Slice rows).
Proof.
  unfold printColumns.
  eapply Sorted_fmap; [|apply (sort_Slice_Sorted _ sort_ok), by_v_swo].
  intros a b. unfold by_v, count_ge. simpl.
  rewrite Z.gtb_ltb, Z.ltb_ge. lia.
Qed.

(** C2, as the code has it: a negative limit is no limit, every aggregated
    row is printed; a limit of 0 is a limit, no row is printed. *)
Theorem topfail_limit_sign infos limit :
  ((limit < 0)%Z ->
   topfail_rows range_map sort_Slice infos limit ≡ₚ aggregated_rows infos) /\
  topfail_rows range_map sort_Slice infos 0 = [].
Proof.
  unfold topfail_rows. split.
  - intros Hneg. rewrite truncate_negative by done. apply ranked_all.
  - by rewrite truncate_zero.
Qed.

(** C4, as the code has it: when the number of aggregated names equals a
    positive limit, nothing is cut and all of the rows are printed. *)
Theorem topfail_limit_equal_count infos K :
  (0 < K)%Z -> Z.of_nat (size (aggregate infos)) = K ->
  length (topfail_rows range_map sort_Slice infos K) = Z.to_nat K /\
  topfail_rows range_map sort_Slice infos K ≡ₚ aggregated_rows infos.
Proof.
  intros Hpos Hsize. unfold topfail_rows.
  rewrite truncate_fits by (rewrite ranked_length; lia).
  split; [|apply ranked_all].
  rewrite length_fmap, ranked_length. lia.
Qed.

(** C8: the rows of [topfail] and of each table of [failstats] are in
    descending order of count.  [topfail] prints all of the aggregated rows
    under a negative limit, else as many as the limit allows; its rows,
    with the rows cut off by the limit, are the aggregated rows, and no row
    cut off has a greater count than a printed row.  Each table of
    [failstats] has the rows of all entries of its counter.  Nothing more
    is said of the order, so rows with equal counts may come in any
    order. *)
Theorem reporters_ranked infos limit testName :
  (Sorted count_ge (topfail_rows range_map sort_Slice infos limit) /\
   length (topfail_rows range_map sort_Slice infos limit)
   = (if (limit <? 0)%Z then size (aggregate infos)
      else Z.to_nat limit `min` size (aggregate infos)) /\
   exists cut,
     topfail_rows range_map sort_Slice infos limit ++ cut
       ≡ₚ aggregated_rows infos /\
     forall r c,
       r ∈ topfail_rows range_map sort_Slice infos limit -> c ∈ cut ->
       count_ge r c) /\
  Forall2 (fun table rows => Sorted count_ge table /\ table ≡ₚ counted_rows rows)
          (failstats_tables range_map sort_Slice infos testName)
          (counters testName infos).
Proof.
  split.
  - unfold topfail_rows.
    set (ranked := sort_Slice _ by_TotalFailures _).
    assert (Hkept : length ((fun info => (TotalFailures info, Test info))
                              <$> truncate limit ranked)
                    = if (limit <? 0)%Z then size (aggregate infos)
                      else Z.to_nat limit `min` size (aggregate infos)).
    { rewrite length_fmap, truncate_kept. unfold ranked.
      by rewrite ranked_length. }
    destruct (truncate_take limit ranked) as (k & Hk & _).
    rewrite Hk in Hkept |- *.
    pose proof (ranked_Sorted infos) as Hs. fold ranked in Hs.
    pose proof (ranked_all infos) as Hp. fold ranked in Hp.
    rewrite <- (take_drop k ranked), fmap_app in Hs, Hp.
    assert (Transitive count_ge) by (intros a b c; unfold count_ge; lia).
    apply Sorted_StronglySorted in Hs; [|done].
    split; [|split].
    + eapply StronglySorted_Sorted, StronglySorted_app_1_l, Hs.
    + exact Hkept.
    + eexists. split; [exact Hp|].
      intros r c. by apply StronglySorted_app_1_elem_of.
  - unfold failstats_tables, counters.
    destruct (tally testName infos) as [[versions variants] tasks].
    repeat constructor;
      auto using printColumns_Sorted, printColumns_Permutation.
Qed.

End reporters_facts.

Lemma topfail_limit_zero_prints_nothing :
  aggregated_rows sample_infos <> [] /\
  topfail_rows range_as_stored sort_Slice_short sample_infos 0 = [].
Proof. by vm_compute. Qed.

Lemma topfail_limit_sign_witness :
  (-1 < 0)%Z /\
  topfail_rows range_as_stored sort_Slice_short sample_infos (-1)
    ≡ₚ aggregated_rows sample_infos.
Proof.
  split; [done|].
  apply (topfail_limit_sign range_as_stored sort_Slice_short
           range_as_stored_contract sort_Slice_short_contract
           sample_infos (-1)).
  done.
Defined.

Lemma topfail_limit_equal_count_prints_all :
  Z.of_nat (size (aggregate sample_infos)) = 2%Z /\
  length (topfail_rows range_as_stored sort_Slice_short sample_infos 2)
    <> Z.to_nat (2 - 1).
Proof. by vm_compute. Qed.

Lemma topfail_limit_equal_count_witness :
  (0 < 2)%Z /\ Z.of_nat (size (aggregate sample_infos)) = 2%Z /\
  length (topfail_rows range_as_stored sort_Slice_short sample_infos 2)
    = Z.to_nat 2.
Proof.
  assert (H1 : (0 < 2)%Z) by done.
  assert (H2 : Z.of_nat (size (aggregate sample_infos)) = 2%Z) by by vm_compute.
  split; [exact H1|]. split; [exact H2|].
  exact (proj1 (topfail_limit_equal_count range_as_stored sort_Slice_short
                  range_as_stored_contract sort_Slice_short_contract
                  sample_infos 2 H1 H2)).
Defined.

Lemma reporters_ranked_witness :
  (Sorted count_ge
     (topfail_rows range_as_stored sort_Slice_short sample_infos 1) /\
   length (topfail_rows range_as_stored sort_Slice_short sample_infos 1)
   = (if (1 <? 0)%Z then size (aggregate sample_infos)
      else Z.to_nat 1 `min` size (aggregate sample_infos)) /\
   exists cut,
     topfail_rows range_as_stored sort_Slice_short sample_infos 1 ++ cut
       ≡ₚ aggregated_rows sample_infos /\
     forall r c,
       r ∈ topfail_rows range_as_stored sort_Slice_short sample_infos 1 ->
       c ∈ cut -> count_ge r c) /\
  Forall2 (fun table rows => Sorted count_ge table /\ table ≡ₚ counted_rows rows)
          (failstats_tables range_as_stored sort_Slice_short
             sample_infos "Test")
          (counters "Test" sample_infos).
Proof.
  exact (reporters_ranked range_as_stored sort_Slice_short
           range_as_stored_contract sort_Slice_short_contract
           sample_infos 1 "Test").
Defined.

(** Rows with equal counts: two sorts that both meet the contract of
    [sort.Slice] print them in different orders. *)
Lemma sort_Slice_reversed_contract : sort_contract sort_Slice_reversed.
Proof.
  split; intros T less x; unfold sort_Slice_reversed.
  - by rewrite insertion_sort_Permutation, reverse_Permutation.
  - intros Hswo. by apply insertion_sort_Sorted, swo_asym.
Qed.

Lemma tied_rows_either_order :
  printColumns range_as_stored sort_Slice_short
    {[ "unit" := 1%Z; "race" := 1%Z ]}
  <> printColumns range_as_stored sort_Slice_reversed
    {[ "unit" := 1%Z; "race" := 1%Z ]}.
Proof. by vm_compute. Qed.

(** *** The operator builders *)

Lemma Max_many exprs :
  length exprs <> 1%nat -> agg.Max exprs = [("$max", agg.bson_A exprs)].
Proof.
  intros Hlen. unfold agg.Max.
  destruct (Z.eqb_spec (Z.of_nat (length exprs)) 1); [lia|done].
Qed.

(** C7: with one argument [Max], [Min] and [MergeObjects] put the argument
    itself under the operator's key, with two arguments the array of
    both. *)
Theorem single_argument_collapsing (x y : agg.any) :
  (agg.Max [x] = [("$max", x)] /\
   agg.Max [x; y] = [("$max", agg.bson_A [x; y])]) /\
  (agg.Min [x] = [("$min", x)] /\
   agg.Min [x; y] = [("$min", agg.bson_A [x; y])]) /\
  (agg.MergeObjects [x] = [("$mergeObjects", x)] /\
   agg.MergeObjects [x; y] = [("$mergeObjects", agg.bson_A [x; y])]).
Proof. repeat split. Qed.

(** *** The GraphQL helper and the report fetcher *)

Lemma graphql_run js net user apiKey query vars log :
  graphql js net user apiKey query vars log =
  let req := {| req_user := user; req_apiKey := apiKey;
                req_query := query; req_variables := vars |} in
  let r := net (length log) req in
  (match r with
   | DoFailed => Err errQuerying
   | ReadFailed _ => Err errReading
   | Body _ data =>
       match Unmarshal_errRes js data with
       | None => Err errUnmarshalingToCheck
       | Some [] => Ok data
       | Some (e :: errs) => Err (errAPIReturnedErrors (e :: errs))
       end
   end, log ++ [(req, r)]).
Proof.
  unfold graphql, mbind, M_bind, Do. cbn zeta.
  destruct (net _ _) as [|status|status data]; [done..|].
  unfold unmarshal, fail, mret, M_ret.
  destruct (Unmarshal_errRes js data) as [[|e errs]|]; done.
Qed.

Section fetcher_facts.

Context (range_map : range_fn) (js : json) (net : network).

Lemma accounted_ret {E A} (a : A) : accounted js (mret a : M E A).
Proof. intros log. exists []. split; [by rewrite app_nil_r|constructor]. Qed.

Lemma accounted_bind {E A B} (m : M E A) (k : A -> M E B) :
  accounted js m -> (forall a, accounted js (k a)) -> accounted js (m ≫= k).
Proof.
  intros Hm Hk log. unfold mbind, M_bind.
  destruct (Hm log) as (new1 & Hlog1 & H1).
  destruct (m log) as [[a|e] log1]; simpl in *; subst log1.
  - destruct (Hk a (log ++ new1)) as (new2 & Hlog2 & H2).
    exists (new1 ++ new2). rewrite Hlog2, app_assoc. split; [done|].
    destruct (k a (log ++ new1)).1.
    + by apply Forall_app.
    + apply Exists_app. by right.
  - by exists new1.
Qed.

Lemma accounted_forM {E A B} (l : list A) (body : A -> M E B) :
  (forall a, accounted js (body a)) -> accounted js (forM l body).
Proof.
  intros Hbody. induction l as [|a l IH]; simpl.
  - apply accounted_ret.
  - apply accounted_bind; [done|]. intros b.
    apply accounted_bind; [done|]. intros bs. apply accounted_ret.
Qed.

(** A query, then the unmarshaling of its answer, then the rest. *)
Lemma accounted_query {T B} user apiKey query vars
    (decode : string -> option T) (wrap : graphqlError -> getInfosError)
    (e : getInfosError) (k : T -> M getInfosError B) :
  (forall data, deserializes js query data = bool_decide (is_Some (decode data))) ->
  (forall v, accounted js (k v)) ->
  accounted js
    (wrapping wrap (graphql js net user apiKey query vars) ≫= fun resJSON =>
     unmarshal (decode resJSON) e ≫= k).
Proof.
  intros Hdec Hk log. unfold mbind, M_bind, wrapping.
  rewrite graphql_run. cbn zeta.
  set (req := {| req_user := user |}).
  assert (Hbad : forall r, is_Some (failure_of js (req, r)) ->
            Exists (fun x => is_Some (failure_of js x)) [(req, r)])
    by (intros; by constructor).
  destruct (net (length log) req) as [|status|status data] eqn:Hr.
  - exists [(req, DoFailed)]. split; [done|]. by apply Hbad.
  - exists [(req, ReadFailed status)]. split; [done|]. by apply Hbad.
  - pose proof (Hdec data) as Hd.
    destruct (Unmarshal_errRes js data) as [[|e0 errs]|] eqn:Herr.
    + unfold unmarshal. destruct (decode data) as [v|] eqn:Hv.
      * unfold mret, M_ret.
        destruct (Hk v (log ++ [(req, Body status data)]))
          as (new & Hlog & Hnew).
        exists ((req, Body status data) :: new).
        rewrite Hlog, <- app_assoc. split; [done|].
        destruct (k v _).1.
        -- constructor; [|done]. unfold failure_of. simpl.
           rewrite Herr, Hd. by rewrite bool_decide_eq_true_2.
        -- by apply Exists_cons_tl.
      * exists [(req, Body status data)]. split; [done|].
        apply Hbad. unfold failure_of. simpl.
        rewrite Herr, Hd. rewrite bool_decide_eq_false_2; [done|].
        by intros [? ?].
    + exists [(req, Body status data)]. split; [done|].
      apply Hbad. unfold failure_of. simpl. by rewrite Herr.
    + exists [(req, Body status data)]. split; [done|].
      apply Hbad. unfold failure_of. simpl. by rewrite Herr.
Qed.

Lemma accounted_getInfos user apiKey projectID versions :
  accounted js (getInfos range_map js net user apiKey projectID versions).
Proof.
  unfold getInfos. apply accounted_query; [done|]. intros res.
  apply accounted_forM. intros ver.
  apply accounted_bind; [|intros; apply accounted_ret].
  apply accounted_forM. intros variant. cbn zeta.
  apply accounted_query; [done|]. intros samples. apply accounted_ret.
Qed.

(** C6, as the code has it: [graphql] fails whenever the body has a
    non-empty [errors] array, whatever the status code; it never reads the
    status code, so its result is the same under any other status; and
    [getInfos] returns an error exactly when one of its round trips had a
    transport failure, a GraphQL-error response or a deserialization
    failure. *)
Theorem fetch_failures user apiKey projectID versions :
  (forall query vars log status data e errs,
      net (length log) {| req_user := user; req_apiKey := apiKey;
                          req_query := query; req_variables := vars |}
        = Body status data ->
      Unmarshal_errRes js data = Some (e :: errs) ->
      (graphql js net user apiKey query vars log).1
        = Err (errAPIReturnedErrors (e :: errs))) /\
  (forall f query vars log,
      (graphql js (restatus f net) user apiKey query vars log).1
        = (graphql js net user apiKey query vars log).1) /\
  (is_Err (getInfos range_map js net user apiKey projectID versions []).1 <->
   Exists (fun x => is_Some (failure_of js x))
          (getInfos range_map js net user apiKey projectID versions []).2).
Proof.
  split; [|split].
  - intros query vars log status data e errs Hnet Herr.
    rewrite graphql_run. cbn zeta. by rewrite Hnet, Herr.
  - intros f query vars log. rewrite !graphql_run. cbn zeta.
    unfold restatus. by destruct (net _ _).
  - destruct (accounted_getInfos user apiKey projectID versions [])
      as (new & Hlog & Hnew).
    simpl in Hlog. rewrite Hlog.
    destruct (getInfos _ _ _ _ _ _ _ _).1; simpl; [|done].
    split; [done|]. intros Hex. apply Exists_exists in Hex as (x & Hx & Hsome).
    rewrite Forall_forall in Hnew. rewrite (Hnew x Hx) in Hsome.
    by destruct Hsome.
Qed.

End fetcher_facts.

Lemma non_2xx_response_accepted :
  (graphql json_of_examples server_error "user" "key" mainlineFailuresQuery
     (mainlineFailuresVars "project" 6) []).1 = Ok "{}" /\
  (getInfos range_as_stored json_of_examples server_error
     "user" "key" "project" 6 []).1 = Ok [].
Proof. by vm_compute. Qed.

Lemma fetch_failures_witness :
  (graphql json_of_examples server_graphql_errors "user" "key"
     mainlineFailuresQuery (mainlineFailuresVars "project" 6) []).1
  = Err (errAPIReturnedErrors ["{}"]).
Proof.
  apply (proj1 (fetch_failures range_as_stored json_of_examples
                  server_graphql_errors "user" "key" "project" 6)
           mainlineFailuresQuery (mainlineFailuresVars "project" 6) []
           200%Z errors_body "{}" []).
  - reflexivity.
  - reflexivity.
Defined.

(** ** Part III: more about the code *)

(** *** The test-name prefix filter *)

Lemma scan_sublist l : scan l `sublist_of` take (length l - 1) l.
Proof.
  induction l as [|a l IH]; [done|].
  destruct l as [|b l]; [done|].
  replace (take (length (a :: b :: l) - 1) (a :: b :: l))
    with (a :: take (length (b :: l) - 1) (b :: l))
    by (simpl; by rewrite Nat.sub_0_r).
  cbn [scan]. destruct (HasPrefix b (a +:+ "/")).
  - by apply sublist_cons.
  - by apply sublist_skip.
Qed.

Lemma scan_elem_iff x l :
  x ∈ scan l <->
  exists l1 y l2, l = l1 ++ x :: y :: l2 /\ HasPrefix y (x +:+ "/") = false.
Proof.
  split; [apply scan_elem|].
  intros (l1 & y & l2 & -> & Hy).
  induction l1 as [|a l1 IH].
  - simpl. rewrite Hy. by left.
  - destruct l1 as [|b l1]; cbn [app scan] in *.
    + destruct (HasPrefix x (a +:+ "/")); [done|by right].
    + destruct (HasPrefix b (a +:+ "/")); [done|by right].
Qed.

(** X1. The names are an unordered collection: neither the slice after the
    call nor the result depends on the order the names are given in. *)
Theorem filterTests_order_irrelevant tests1 tests2 :
  tests1 ≡ₚ tests2 -> filterTests tests1 = filterTests tests2.
Proof.
  intros Hp. rewrite !filterTests_scan.
  assert (sort_Strings tests1 = sort_Strings tests2) as ->; [|done].
  apply sort_Strings_unique; [apply sort_Strings_Sorted|].
  by rewrite sort_Strings_Permutation.
Qed.

Lemma filterTests_order_irrelevant_witness :
  ["b"; "a/x"; "a"] ≡ₚ ["a"; "b"; "a/x"] /\
  filterTests ["b"; "a/x"; "a"] = filterTests ["a"; "b"; "a/x"].
Proof.
  assert (H : ["b"; "a/x"; "a"] ≡ₚ ["a"; "b"; "a/x"]).
  { change (["b"; "a/x"] ++ ["a"] ≡ₚ ["a"] ++ ["b"; "a/x"]).
    apply Permutation_app_comm. }
  split; [exact H|].
  exact (filterTests_order_irrelevant _ _ H).
Defined.

(** X2. The result is a subsequence of the sorted slice without its last
    name: it is in increasing order, holds names of the input only, and
    repeats a name only if the input does. *)
Theorem filterTests_subsequence tests :
  (filterTests tests).2
    `sublist_of` take (length tests - 1) (filterTests tests).1 /\
  Sorted String.le (filterTests tests).2 /\
  (forall x, x ∈ (filterTests tests).2 -> x ∈ tests) /\
  (NoDup tests -> NoDup (filterTests tests).2).
Proof.
  rewrite filterTests_scan. cbn [fst snd].
  pose proof (scan_sublist (sort_Strings tests)) as Hsub.
  rewrite (Permutation_length (sort_Strings_Permutation tests)) in Hsub.
  assert (Hsub' : scan (sort_Strings tests) `sublist_of` sort_Strings tests)
    by (etrans; [exact Hsub|apply sublist_take]).
  split; [done|]. split; [|split].
  - apply StronglySorted_Sorted.
    pose proof (sort_Strings_Sorted tests) as Hs.
    apply Sorted_StronglySorted in Hs; [|apply _].
    revert Hsub' Hs. generalize (sort_Strings tests) (scan (sort_Strings tests)).
    intros l k Hsub''. induction Hsub'' as [|a k l Hkl IH|a k l Hkl IH].
    + constructor.
    + rewrite !StronglySorted_cons. intros [Ha Hl]. split; [|auto].
      rewrite Forall_forall in *. intros y Hy. apply Ha.
      by eapply elem_of_sublist.
    + rewrite StronglySorted_cons. intros [_ Hl]. auto.
  - intros x Hx. rewrite <- (sort_Strings_Permutation tests).
    by eapply elem_of_sublist.
  - intros Hnd. eapply sublist_NoDup; [|exact Hsub'].
    by rewrite sort_Strings_Permutation.
Qed.

(** X3. Which names are returned: those with a next name in the sorted slice
    that is not their child. *)
Theorem filterTests_returns tests x :
  x ∈ (filterTests tests).2 <->
  exists l1 y l2,
    (filterTests tests).1 = l1 ++ x :: y :: l2 /\ ~ strict_ancestor x y.
Proof.
  rewrite filterTests_scan. cbn [fst snd]. rewrite scan_elem_iff.
  split; intros (l1 & y & l2 & Heq & Hy); exists l1, y, l2; (split; [done|]).
  - rewrite <- HasPrefix_strict_ancestor. by rewrite Hy.
  - rewrite <- HasPrefix_strict_ancestor in Hy. by destruct (HasPrefix _ _).
Qed.

(** *** What the reporters count *)

Lemma foldl_ext {A B} (f g : A -> B -> A) a l :
  (forall a x, f a x = g a x) -> foldl f a l = foldl g a l.
Proof.
  intros Hfg. revert a. induction l as [|x l IH]; intros a; simpl; [done|].
  by rewrite Hfg, IH.
Qed.

Lemma foldl_bind {A B C} (f : A -> C -> A) (g : B -> list C) a l :
  foldl f a (l ≫= g) = foldl (fun a x => foldl f a (g x)) a l.
Proof.
  revert a. induction l as [|x l IH]; intros a; [done|].
  by rewrite bind_cons, foldl_app, IH.
Qed.

Lemma wrap_int_0 : wrap_int 0 = 0%Z.
Proof. reflexivity. Qed.

Lemma incr_wrap_int n : incr (wrap_int n) = wrap_int (n + 1).
Proof.
  unfold incr, wrap_int. f_equal.
  replace ((n + 2 ^ 63) `mod` 2 ^ 64 - 2 ^ 63 + 1 + 2 ^ 63)%Z
    with ((n + 2 ^ 63) `mod` 2 ^ 64 + 1)%Z by lia.
  rewrite Zplus_mod_idemp_l. f_equal. lia.
Qed.

Lemma incr_counted n : incr (default 0%Z (counted n)) = wrap_int (Z.of_nat (S n)).
Proof.
  destruct n as [|n]; [done|].
  change (default 0%Z (counted (S n))) with (wrap_int (Z.of_nat (S n))).
  rewrite incr_wrap_int. f_equal. lia.
Qed.

Lemma bump_lookup k m k' :
  bump k m !! k' =
  if decide (k = k') then Some (incr (default 0%Z (m !! k))) else m !! k'.
Proof. unfold bump. by rewrite lookup_insert. Qed.

Lemma bump_counted k m k' n :
  m !! k' = counted n ->
  bump k m !! k' = counted (if decide (k = k') then S n else n).
Proof.
  intros Hm. rewrite bump_lookup. case_decide as Hk; [subst k'|done].
  rewrite Hm, incr_counted. done.
Qed.

Lemma aggregate_failures infos :
  aggregate infos
  = foldl (fun tests f => record_failure f.1.1 f.1.2 f.2 tests) ∅ (failures infos).
Proof.
  unfold aggregate, failures. rewrite foldl_bind.
  apply foldl_ext. intros tests info. rewrite foldl_bind.
  apply foldl_ext. intros tests' variant. rewrite foldl_bind.
  apply foldl_ext. intros tests'' task. by rewrite foldl_fmap.
Qed.

Lemma record_failure_entry fs revision task t tests :
  (forall test, aggregate_entry fs test (tests !! test)) ->
  forall test,
    aggregate_entry (fs ++ [(revision, task, t)]) test
      (record_failure revision task t tests !! test).
Proof.
  intros IH test. unfold record_failure.
  destruct (decide (t = test)) as [->|Hne].
  2:{ rewrite lookup_insert_ne by done. specialize (IH test).
      unfold aggregate_entry in *. cbn zeta in *.
      rewrite filter_app, filter_cons_False, filter_nil, app_nil_r by done.
      exact IH. }
  rewrite lookup_insert_eq. specialize (IH test).
  unfold aggregate_entry in *. cbn zeta in *.
  rewrite filter_app, filter_cons_True, filter_nil by done.
  set (mine := filter (fun f => f.2 = test) fs) in *.
  set (info := default _ (tests !! test)).
  assert (Hinfo :
    TotalFailures info = wrap_int (Z.of_nat (length mine)) /\
    forall r,
      FailedTasksPerRevision info !! r
        = (if decide (filter (fun f => f.1.1 = r) mine = []) then None
           else Some ((fun f => f.1.2) <$> filter (fun f => f.1.1 = r) mine))
      /\ FailuresPerRevision info !! r
        = counted (length (filter (fun f => f.1.1 = r) mine))).
  { subst info. destruct (tests !! test) as [info|]; simpl.
    - by destruct IH as (_ & _ & ? & ?).
    - rewrite IH. split; [done|]. intros r.
      by rewrite !lookup_empty, filter_nil, decide_True. }
  destruct Hinfo as [Htotal Hrev]. cbn [Test TotalFailures
    FailedTasksPerRevision FailuresPerRevision].
  split; [by destruct mine|]. split; [done|]. split.
  { rewrite Htotal, incr_wrap_int, length_app. simpl. f_equal. lia. }
  intros r. rewrite filter_app. destruct (Hrev r) as [Htasks Hcount].
  rewrite (bump_counted _ _ _ _ Hcount).
  destruct (decide (revision = r)) as [->|Hr].
  - rewrite filter_cons_True, filter_nil by done.
    rewrite lookup_insert_eq, Htasks, length_app, fmap_app. split.
    + destruct (filter (fun f => f.1.1 = r) mine) as [|f here]; [done|].
      by rewrite decide_False.
    + simpl. by rewrite Nat.add_1_r.
  - rewrite filter_cons_False, filter_nil, app_nil_r by done.
    by rewrite lookup_insert_ne.
Qed.

(** X4. The record [topfail] holds for a test after its loops: there is one
    exactly when the filter returned the test for some task; it has the
    test's name, the number of those failures as its total, and for each
    revision the tasks the test failed in and their number (the numbers as
    Go ints). *)
Theorem aggregate_counts infos test :
  aggregate_entry (failures infos) test (aggregate infos !! test).
Proof.
  rewrite aggregate_failures. revert test.
  induction (failures infos) as [|[[revision task] t] fs IH] using rev_ind.
  - intros test. cbn [foldl]. rewrite lookup_empty. reflexivity.
  - rewrite foldl_snoc. by apply record_failure_entry.
Qed.

Lemma bump_fold_count {A} (key : A -> string) xs k :
  foldl (fun m x => bump (key x) m) ∅ xs !! k
  = counted (length (filter (fun x => key x = k) xs)).
Proof.
  induction xs as [|x xs IH] using rev_ind;
    [cbn [foldl]; by rewrite lookup_empty|].
  rewrite foldl_snoc, (bump_counted _ _ _ _ IH), filter_app, length_app.
  case_decide as Hk.
  - rewrite filter_cons_True, filter_nil by done. simpl. by rewrite Nat.add_1_r.
  - rewrite filter_cons_False, filter_nil by done. simpl. by rewrite Nat.add_0_r.
Qed.

Lemma tally_fold_proj (ms : list (string * string * string)) a b c :
  foldl (fun acc m => (bump m.1.1 acc.1.1, bump m.1.2 acc.1.2, bump m.2 acc.2))
        (a, b, c) ms
  = (foldl (fun m x => bump x.1.1 m) a ms,
     foldl (fun m x => bump x.1.2 m) b ms,
     foldl (fun m x => bump x.2 m) c ms).
Proof.
  revert a b c. induction ms as [|m ms IH]; intros a b c; [done|].
  simpl. by rewrite IH.
Qed.

Lemma tally_matches testName infos :
  tally testName infos
  = foldl (fun acc m => (bump m.1.1 acc.1.1, bump m.1.2 acc.1.2, bump m.2 acc.2))
          (∅, ∅, ∅) (matches testName infos).
Proof.
  unfold tally, matches. rewrite foldl_bind.
  apply foldl_ext. intros acc info. rewrite foldl_bind.
  apply foldl_ext. intros acc' variant. rewrite foldl_bind.
  apply foldl_ext. intros acc'' task. rewrite foldl_fmap.
  revert acc''. induction (FailedTests task) as [|test l IH]; intros acc''; [done|].
  cbn [foldl]. rewrite IH. destruct acc'' as [[versions variants] tasks].
  destruct (Contains test testName) eqn:Hc.
  - by rewrite filter_cons_True.
  - rewrite filter_cons_False; [done|]. by rewrite Hc.
Qed.

(** X7. The counters of [failstats]: a version, a variant or a task has an
    entry exactly when a failed test under it contains [testName], and the
    entry is the number of those tests (as a Go int). Variants are told
    apart by display name and tasks by name only. *)
Theorem tally_counts testName infos k :
  (tally testName infos).1.1 !! k
    = counted (length (filter (fun m => m.1.1 = k) (matches testName infos))) /\
  (tally testName infos).1.2 !! k
    = counted (length (filter (fun m => m.1.2 = k) (matches testName infos))) /\
  (tally testName infos).2 !! k
    = counted (length (filter (fun m => m.2 = k) (matches testName infos))).
Proof.
  rewrite tally_matches, tally_fold_proj. cbn [fst snd].
  by rewrite !bump_fold_count.
Qed.

(** *** What the reporters print *)

Lemma aggregate_Test infos test info :
  aggregate infos !! test = Some info -> Test info = test.
Proof.
  rewrite aggregate_failures. revert test info.
  induction (failures infos) as [|[[revision task] t] fs IH] using rev_ind;
    intros test info.
  - cbn [foldl]. by rewrite lookup_empty.
  - rewrite foldl_snoc. unfold record_failure. cbn [fst snd].
    destruct (decide (t = test)) as [->|Hne].
    + rewrite lookup_insert_eq. by intros [= <-].
    + rewrite lookup_insert_ne by done. apply IH.
Qed.

Lemma aggregated_rows_names infos :
  (aggregated_rows infos).*2 = (map_to_list (aggregate infos)).*1.
Proof.
  unfold aggregated_rows. rewrite <- list_fmap_compose.
  apply list_fmap_ext. intros i [k info] Hi. simpl.
  apply (aggregate_Test infos). apply elem_of_map_to_list.
  by eapply list_elem_of_lookup_2.
Qed.

Lemma truncate_length {T} (limit : Z) (l : list T) :
  (0 <= limit)%Z ->
  length (truncate limit l) = Z.to_nat limit `min` length l.
Proof.
  intros Hpos. unfold truncate.
  destruct (Z.geb_spec limit 0) as [_|]; [|lia]. cbn [andb].
  destruct (Z.gtb_spec (Z.of_nat (length l)) limit) as [Hgt|Hle]; [|lia].
  destruct (Z.geb_spec limit (Z.of_nat (length l))); [lia|].
  rewrite length_take. lia.
Qed.

Section reporters_print.

Context (range_map : range_fn) (sort_Slice : sort_fn).
Hypothesis range_ok : range_contract range_map.
Hypothesis sort_ok : sort_contract sort_Slice.

(** X5. The table of [topfail]: no test is printed twice; a printed row
    shows the name and the total of a record of the map; under a limit of
    at least 0 the number of rows is the smaller of the limit and the
    number of aggregated tests. *)
Theorem topfail_rows_table infos limit :
  NoDup (topfail_rows range_map sort_Slice infos limit).*2 /\
  (forall count name,
      (count, name) ∈ topfail_rows range_map sort_Slice infos limit ->
      exists info,
        aggregate infos !! name = Some info /\ count = TotalFailures info) /\
  ((0 <= limit)%Z ->
   length (topfail_rows range_map sort_Slice infos limit)
   = Z.to_nat limit `min` size (aggregate infos)).
Proof.
  pose proof (ranked_all range_map sort_Slice range_ok sort_ok infos) as Hall.
  pose proof (ranked_length range_map sort_Slice range_ok sort_ok infos) as Hlen.
  unfold topfail_rows.
  set (ranked := sort_Slice _ by_TotalFailures _) in *.
  split; [|split].
  - destruct (truncate_take limit ranked) as (k & -> & _).
    rewrite !fmap_take. eapply sublist_NoDup; [|apply sublist_take].
    rewrite Hall, aggregated_rows_names. apply NoDup_fst_map_to_list.
  - intros count name Hrow.
    destruct (truncate_take limit ranked) as (k & Hk & _). rewrite Hk in Hrow.
    rewrite fmap_take in Hrow.
    pose proof (elem_of_sublist _ _ _ Hrow (sublist_take _ k)) as Hin.
    rewrite Hall in Hin. unfold aggregated_rows in Hin.
    apply list_elem_of_fmap in Hin as ([test info] & Heq & Hin).
    apply elem_of_map_to_list in Hin. simpl in Heq.
    injection Heq as -> ->. exists info.
    by rewrite (aggregate_Test _ _ _ Hin).
  - intros Hpos. by rewrite length_fmap, truncate_length, Hlen.
Qed.

(** X8. A table of [failstats]: [printColumns] prints one row for each entry
    of the counter, the key once with its count. *)
Theorem printColumns_table (rows : gmap string Z) :
  NoDup (printColumns range_map sort_Slice rows).*2 /\
  (forall count k,
      (count, k) ∈ printColumns range_map sort_Slice rows <->
      rows !! k = Some count) /\
  length (printColumns range_map sort_Slice rows) = size rows.
Proof.
  pose proof (printColumns_Permutation range_map sort_Slice range_ok sort_ok rows)
    as Hp.
  unfold counted_rows in Hp. split; [|split].
  - rewrite Hp, <- list_fmap_compose.
    rewrite (list_fmap_ext _ fst (map_to_list rows)) by done.
    apply NoDup_fst_map_to_list.
  - intros count k. rewrite Hp, list_elem_of_fmap. split.
    + intros ([k' c] & Heq & Hin). simpl in Heq. injection Heq as -> ->.
      by apply elem_of_map_to_list.
    + intros Hk. exists (k, count). split; [done|].
      by apply elem_of_map_to_list.
  - by rewrite Hp, length_fmap, length_map_to_list.
Qed.

End reporters_print.

Lemma topfail_rows_table_witness :
  (0 <= 1)%Z /\
  length (topfail_rows range_as_stored sort_Slice_short sample_infos 1)
  = Z.to_nat 1 `min` size (aggregate sample_infos).
Proof.
  assert (H : (0 <= 1)%Z) by done.
  split; [exact H|].
  exact (proj2 (proj2 (topfail_rows_table range_as_stored sort_Slice_short
                         range_as_stored_contract sort_Slice_short_contract
                         sample_infos 1)) H).
Defined.

Lemma printColumns_table_witness :
  length (printColumns range_as_stored sort_Slice_short
            {[ "unit" := 3%Z; "race" := 2%Z ]})
  = size ({[ "unit" := 3%Z; "race" := 2%Z ]} : gmap string Z).
Proof.
  exact (proj2 (proj2 (printColumns_table range_as_stored sort_Slice_short
                         range_as_stored_contract sort_Slice_short_contract
                         {[ "unit" := 3%Z; "race" := 2%Z ]}))).
Defined.

(** *** More about the GraphQL helper and the report fetcher *)

Lemma bind_Ok {E A B} (m : M E A) (k : A -> M E B) log b log' :
  (m ≫= k) log = (Ok b, log') ->
  exists a log1, m log = (Ok a, log1) /\ k a log1 = (Ok b, log').
Proof.
  unfold mbind, M_bind. destruct (m log) as [[a|e] log1]; [|done].
  intros Hk. by exists a, log1.
Qed.

Lemma unmarshal_Ok {E A} (decoded : option A) (e : E) log v log' :
  unmarshal decoded e log = (Ok v, log') -> decoded = Some v /\ log' = log.
Proof. destruct decoded; [|done]. by intros [= -> ->]. Qed.

Lemma wrapping_Ok {E E' A} (wrap : E -> E') (m : M E A) log a log' :
  wrapping wrap m log = (Ok a, log') -> m log = (Ok a, log').
Proof.
  unfold wrapping. destruct (m log) as [[?|?] ?]; [|done].
  by intros [= -> ->].
Qed.

Lemma taskIDs_lookup (tasks : list taskRes.t) (id : string) :
  foldl (fun taskIDs t => <[taskRes.ID t := taskRes.DisplayName t]> taskIDs)
        (∅ : gmap string string) tasks !! id
  = taskRes.DisplayName <$> last (filter (fun t => taskRes.ID t = id) tasks).
Proof.
  induction tasks as [|t tasks IH] using rev_ind; [done|].
  rewrite foldl_snoc, filter_app.
  destruct (decide (taskRes.ID t = id)) as [<-|Hne].
  - rewrite lookup_insert_eq, filter_cons_True, filter_nil by done.
    by rewrite last_snoc.
  - rewrite lookup_insert_ne, filter_cons_False, filter_nil, app_nil_r by done.
    done.
Qed.

Lemma graphql_log js net user apiKey query vars log :
  (graphql js net user apiKey query vars log).2
  = log ++ [({| req_user := user; req_apiKey := apiKey;
                req_query := query; req_variables := vars |},
             net (length log)
               {| req_user := user; req_apiKey := apiKey;
                  req_query := query; req_variables := vars |})].
Proof. by rewrite graphql_run. Qed.

Lemma graphql_Ok js net user apiKey query vars log data log' :
  graphql js net user apiKey query vars log = (Ok data, log') ->
  exists status,
    net (length log)
      {| req_user := user; req_apiKey := apiKey;
         req_query := query; req_variables := vars |}
    = Body status data.
Proof.
  rewrite graphql_run. cbn zeta.
  destruct (net _ _) as [|status|status data']; [done..|].
  destruct (Unmarshal_errRes js data') as [[|e errs]|]; [|done..].
  intros [= <- _]. by exists status.
Qed.

(** X9. One call of [graphql] is one round trip, logged after the earlier
    ones; it returns a value only when the response has a body that
    unmarshals with no [errors], and the value is that body, unchanged. *)
Theorem graphql_round_trip js net user apiKey query vars log :
  let req := {| req_user := user; req_apiKey := apiKey;
                req_query := query; req_variables := vars |} in
  (graphql js net user apiKey query vars log).2
    = log ++ [(req, net (length log) req)] /\
  forall data,
    (graphql js net user apiKey query vars log).1 = Ok data ->
    exists status,
      net (length log) req = Body status data /\
      Unmarshal_errRes js data = Some [].
Proof.
  rewrite graphql_run. cbn zeta. split; [done|]. cbn [fst].
  intros data. destruct (net _ _) as [|status|status data']; [done..|].
  destruct (Unmarshal_errRes js data') as [[|e errs]|] eqn:Herr; [|done..].
  intros [= <-]. by exists status.
Qed.

Lemma graphql_round_trip_witness :
  (graphql json_of_examples server_error "user" "key" mainlineFailuresQuery
     (mainlineFailuresVars "project" 6) []).1 = Ok "{}" /\
  exists status,
    server_error 0
      {| req_user := "user"; req_apiKey := "key";
         req_query := mainlineFailuresQuery;
         req_variables := mainlineFailuresVars "project" 6 |}
    = Body status "{}" /\
    Unmarshal_errRes json_of_examples "{}" = Some [].
Proof.
  assert (H : (graphql json_of_examples server_error "user" "key"
                 mainlineFailuresQuery (mainlineFailuresVars "project" 6) []).1
              = Ok "{}") by reflexivity.
  split; [exact H|].
  exact (proj2 (graphql_round_trip json_of_examples server_error "user" "key"
                  mainlineFailuresQuery (mainlineFailuresVars "project" 6) [])
           "{}" H).
Defined.

Lemma wrapping_log {E E' A} (wrap : E -> E') (m : M E A) log :
  (wrapping wrap m log).2 = (m log).2.
Proof. unfold wrapping. by destruct (m log) as [[?|?] ?]. Qed.

Section fetcher_more.

Context (range_map : range_fn) (js : json) (net : network).

Lemma stops_ret {A} (a : A) : stops_at_failure js (mret a).
Proof. intros log. exists []. split; [by rewrite app_nil_r|constructor]. Qed.

Lemma stops_bind {A B} (m : M getInfosError A) (k : A -> M getInfosError B) :
  stops_at_failure js m -> (forall a, stops_at_failure js (k a)) ->
  stops_at_failure js (m ≫= k).
Proof.
  intros Hm Hk log. unfold mbind, M_bind.
  destruct (Hm log) as (new1 & Hlog1 & H1).
  destruct (m log) as [[a|e] log1]; simpl in *; subst log1.
  - destruct (Hk a (log ++ new1)) as (new2 & Hlog2 & H2).
    exists (new1 ++ new2). rewrite Hlog2, app_assoc. split; [done|].
    destruct (k a (log ++ new1)).1 as [b|e].
    + by apply Forall_app.
    + destruct H2 as (before & x & -> & Hbefore & Hx).
      exists (new1 ++ before), x. rewrite app_assoc. split; [done|].
      split; [by apply Forall_app|done].
  - by exists new1.
Qed.

Lemma stops_forM {A B} (l : list A) (body : A -> M getInfosError B) :
  (forall a, stops_at_failure js (body a)) -> stops_at_failure js (forM l body).
Proof.
  intros Hbody. induction l as [|a l IH]; simpl.
  - apply stops_ret.
  - apply stops_bind; [done|]. intros b.
    apply stops_bind; [done|]. intros bs. apply stops_ret.
Qed.

Lemma stops_query {T B} user apiKey query vars
    (decode : string -> option T) (wrap : graphqlError -> getInfosError)
    (e : getInfosError) (k : T -> M getInfosError B) :
  (forall data, deserializes js query data = bool_decide (is_Some (decode data))) ->
  (forall err, kind_of (wrap err) = kind_of (errQueryingMainlineCommits err)) ->
  kind_of e = Deserialization ->
  (forall v, stops_at_failure js (k v)) ->
  stops_at_failure js
    (wrapping wrap (graphql js net user apiKey query vars) ≫= fun resJSON =>
     unmarshal (decode resJSON) e ≫= k).
Proof.
  intros Hdec Hwrap He Hk log. unfold mbind, M_bind, wrapping.
  rewrite graphql_run. cbn zeta.
  set (req := {| req_user := user |}).
  assert (Hlast : forall r err,
            failure_of js (req, r) = Some (kind_of err) ->
            exists before x,
              [(req, r)] = before ++ [x] /\
              Forall (fun x => failure_of js x = None) before /\
              failure_of js x = Some (kind_of err))
    by (intros r err Hr; by exists [], (req, r)).
  destruct (net (length log) req) as [|status|status data] eqn:Hr.
  - exists [(req, DoFailed)]. split; [done|]. apply Hlast. by rewrite Hwrap.
  - exists [(req, ReadFailed status)]. split; [done|]. apply Hlast.
    by rewrite Hwrap.
  - pose proof (Hdec data) as Hd.
    destruct (Unmarshal_errRes js data) as [[|e0 errs]|] eqn:Herr.
    + unfold unmarshal. destruct (decode data) as [v|] eqn:Hv.
      * unfold mret, M_ret.
        destruct (Hk v (log ++ [(req, Body status data)]))
          as (new & Hlog & Hnew).
        exists ((req, Body status data) :: new).
        rewrite Hlog, <- app_assoc. split; [done|].
        assert (Hok : failure_of js (req, Body status data) = None).
        { unfold failure_of. simpl. rewrite Herr, Hd.
          by rewrite bool_decide_eq_true_2. }
        destruct (k v _).1 as [b|e'].
        -- by constructor.
        -- destruct Hnew as (before & x & -> & Hbefore & Hx).
           exists ((req, Body status data) :: before), x.
           split; [done|]. split; [by constructor|done].
      * exists [(req, Body status data)]. split; [done|].
        apply Hlast. unfold failure_of. simpl.
        rewrite Herr, Hd, He. rewrite bool_decide_eq_false_2; [done|].
        by intros [? ?].
    + exists [(req, Body status data)]. split; [done|].
      apply Hlast. unfold failure_of. simpl. by rewrite Herr, Hwrap.
    + exists [(req, Body status data)]. split; [done|].
      apply Hlast. unfold failure_of. simpl. by rewrite Herr, Hwrap.
Qed.

Lemma stops_getInfos user apiKey projectID versions :
  stops_at_failure js (getInfos range_map js net user apiKey projectID versions).
Proof.
  unfold getInfos. apply stops_query; [done..|]. intros res.
  apply stops_forM. intros ver.
  apply stops_bind; [|intros; apply stops_ret].
  apply stops_forM. intros variant. cbn zeta.
  apply stops_query; [done..|]. intros samples. apply stops_ret.
Qed.

(** X10. [getInfos] gives up at the first failure: when it returns an error,
    the round trip made last has the failure the error reports, and no round
    trip before it has one. There is no retry and no request after a
    failure. *)
Theorem getInfos_stops_at_failure user apiKey projectID versions e log :
  getInfos range_map js net user apiKey projectID versions [] = (Err e, log) ->
  exists before x,
    log = before ++ [x] /\
    Forall (fun x => failure_of js x = None) before /\
    failure_of js x = Some (kind_of e).
Proof.
  intros Hrun.
  destruct (stops_getInfos user apiKey projectID versions []) as (new & Hlog & H).
  rewrite Hrun in Hlog, H. simpl in Hlog, H. by subst new.
Qed.

Lemma forM_chunks {E A B} (R : A -> list exchange -> B -> Prop) l
    (body : A -> M E B) :
  (forall a log b log',
      body a log = (Ok b, log') -> exists new, log' = log ++ new /\ R a new b) ->
  forall log bs log',
    forM l body log = (Ok bs, log') ->
    exists chunks, log' = log ++ concat chunks /\ Forall3 R l chunks bs.
Proof.
  intros Hbody. induction l as [|a l IH]; intros log bs log'; cbn [forM].
  - intros [= <- <-]. exists []. split; [by rewrite app_nil_r|constructor].
  - intros (b & log1 & Hb & (bs' & log2 & Hbs & [= <- <-])%bind_Ok)%bind_Ok.
    destruct (Hbody _ _ _ _ Hb) as (new & -> & HR).
    destruct (IH _ _ _ Hbs) as (chunks & -> & HRs).
    exists (new :: chunks). split; [by rewrite <- app_assoc|by constructor].
Qed.

Lemma Forall3_singletons {A B} (P : A -> exchange -> B -> Prop) l chunks bs :
  Forall3 (fun a new b => exists x, new = [x] /\ P a x b) l chunks bs ->
  Forall3 P l (concat chunks) bs.
Proof.
  induction 1 as [|a new b l chunks bs (x & -> & HP) _ IH]; [constructor|].
  simpl. by constructor.
Qed.

Lemma faithful_snoc log req :
  faithful net log -> faithful net (log ++ [(req, net (length log) req)]).
Proof.
  intros Hlog i x [[_ Hi]|[-> <-]]%lookup_snoc_Some; [by apply Hlog|done].
Qed.

Lemma faithful_bind {E A B} (m : M E A) (k : A -> M E B) :
  (forall log, faithful net log -> faithful net (m log).2) ->
  (forall a log, faithful net log -> faithful net (k a log).2) ->
  forall log, faithful net log -> faithful net ((m ≫= k) log).2.
Proof.
  intros Hm Hk log Hlog. unfold mbind, M_bind.
  specialize (Hm log Hlog). destruct (m log) as [[a|e] log1]; [|done].
  by apply Hk.
Qed.

Lemma faithful_forM {E A B} (l : list A) (body : A -> M E B) :
  (forall a log, faithful net log -> faithful net (body a log).2) ->
  forall log, faithful net log -> faithful net (forM l body log).2.
Proof.
  intros Hbody. induction l as [|a l IH]; [done|]. cbn [forM].
  apply faithful_bind; [apply Hbody|]. intros b.
  apply faithful_bind; [apply IH|]. done.
Qed.

Lemma faithful_query {T B} user apiKey query vars
    (decode : string -> option T) (wrap : graphqlError -> getInfosError)
    (e : getInfosError) (k : T -> M getInfosError B) :
  (forall v log, faithful net log -> faithful net (k v log).2) ->
  forall log,
    faithful net log ->
    faithful net
      ((wrapping wrap (graphql js net user apiKey query vars) ≫= fun resJSON =>
        unmarshal (decode resJSON) e ≫= k) log).2.
Proof.
  intros Hk. apply faithful_bind.
  - intros log Hlog. rewrite wrapping_log, graphql_log.
    by apply faithful_snoc.
  - intros data. apply faithful_bind; [|done].
    intros log Hlog. unfold unmarshal. by destruct (decode data).
Qed.

Lemma faithful_getInfos user apiKey projectID versions log :
  faithful net log ->
  faithful net (getInfos range_map js net user apiKey projectID versions log).2.
Proof.
  unfold getInfos. apply faithful_query. intros res.
  apply faithful_forM. intros ver.
  apply faithful_bind; [|done].
  apply faithful_forM. intros variant. cbn zeta.
  apply faithful_query. done.
Qed.

(** X11. A run of [getInfos] that returns a tree.  The log records the round
    trips as the network answered them.  The first is the mainline query
    for the project and the number of versions asked for, answered by a
    body that unmarshals to versions.  After it comes one round trip for
    each build variant of each version, in order: the sample query for the
    version and the variant's task ids.  The tree has one [revisionInfo]
    for each version, with its id, time, revision and message, and in it
    one [variantInfo] for each build variant, with its display name and
    one task for each sample of the response to the variant's request,
    named after the variant's task with the sample's id and holding the
    sample's failed test names. *)
Theorem getInfos_Ok user apiKey projectID versions infos log :
  getInfos range_map js net user apiKey projectID versions [] = (Ok infos, log) ->
  faithful net log /\
  exists status data vers chunks,
    log = ({| req_user := user; req_apiKey := apiKey;
              req_query := mainlineFailuresQuery;
              req_variables := mainlineFailuresVars projectID versions |},
           Body status data) :: concat chunks /\
    Unmarshal_mainlineCommits js data = Some vers /\
    Forall3 (mirrors_version range_map js user apiKey) vers chunks infos /\
    length log
    = S (sum_list ((fun ver => length (versionRes.BuildVariants ver)) <$> vers)).
Proof.
  intros Hrun. split.
  { pose proof (faithful_getInfos user apiKey projectID versions []) as Hf.
    rewrite Hrun in Hf. apply Hf. intros i x. by rewrite lookup_nil. }
  revert Hrun. unfold getInfos.
  intros (data & log1 & Hq%wrapping_Ok
          & (vers & log2 & [Hvers ->]%unmarshal_Ok & Hloop)%bind_Ok)%bind_Ok.
  pose proof (graphql_log js net user apiKey mainlineFailuresQuery
                (mainlineFailuresVars projectID versions) []) as Hlog1.
  destruct (graphql_Ok _ _ _ _ _ _ _ _ _ Hq) as (status & Hnet).
  rewrite Hq in Hlog1. cbn [snd] in Hlog1. rewrite Hnet in Hlog1.
  cbn [app] in Hlog1. subst log1.
  apply (forM_chunks (mirrors_version range_map js user apiKey)) in Hloop.
  { destruct Hloop as (chunks & -> & Hmirror).
    exists status, data, vers, chunks. repeat (split; [done|]).
    cbn [app length]. f_equal. clear -Hmirror.
    induction Hmirror as [|ver xs info vers chunks infos Hver _ IH]; [done|].
    csimpl. rewrite length_app, IH. f_equal.
    destruct Hver as (_ & _ & _ & _ & Hvs).
    symmetry. by eapply Forall3_length_lm. }
  clear. intros ver log info log'.
  intros (variants & log1 & Hvariants & [= <- <-])%bind_Ok.
  apply (forM_chunks
           (fun variant new v =>
              exists x, new = [x] /\
                mirrors_variant range_map js user apiKey ver variant x v))
    in Hvariants.
  { destruct Hvariants as (chunks & -> & Hmirror).
    exists (concat chunks). split; [done|].
    repeat (split; [done|]). by apply Forall3_singletons. }
  clear. intros variant log v log'. cbn zeta.
  intros (data & log1 & Hq%wrapping_Ok
          & (samples & log2 & [Hs ->]%unmarshal_Ok & [= <- <-])%bind_Ok)%bind_Ok.
  pose proof (graphql_log js net user apiKey taskTestSampleQuery
                (req_variables (sample_request range_map user apiKey ver variant))
                log) as Hlog.
  destruct (graphql_Ok _ _ _ _ _ _ _ _ _ Hq) as (status & Hnet).
  unfold sample_request in Hlog. cbn [req_variables] in Hlog.
  rewrite Hq in Hlog. cbn [snd] in Hlog. rewrite Hnet in Hlog.
  eexists. split; [exact Hlog|]. eexists. split; [reflexivity|].
  split; [done|]. exists status, data, samples.
  split; [done|]. split; [done|]. f_equal.
  apply list_fmap_ext. intros i sample _. f_equal.
  unfold task_name. by rewrite taskIDs_lookup.
Qed.

End fetcher_more.

Lemma getInfos_stops_at_failure_witness :
  exists before x,
    (getInfos range_as_stored json_canned server_garbled
       "user" "key" "project" 6 []).2 = before ++ [x] /\
    Forall (fun x => failure_of json_canned x = None) before /\
    failure_of json_canned x
    = Some (kind_of (errQueryingTaskTestSample errUnmarshalingToCheck)).
Proof.
  exact (getInfos_stops_at_failure range_as_stored json_canned server_garbled
           "user" "key" "project" 6
           (errQueryingTaskTestSample errUnmarshalingToCheck) _ eq_refl).
Defined.

Lemma getInfos_Ok_witness :
  faithful server_canned
    (getInfos range_as_stored json_canned server_canned
       "user" "key" "project" 6 []).2 /\
  exists status data vers chunks,
    (getInfos range_as_stored json_canned server_canned
       "user" "key" "project" 6 []).2
    = ({| req_user := "user"; req_apiKey := "key";
          req_query := mainlineFailuresQuery;
          req_variables := mainlineFailuresVars "project" 6 |},
       Body status data) :: concat chunks /\
    Unmarshal_mainlineCommits json_canned data = Some vers /\
    Forall3 (mirrors_version range_as_stored json_canned "user" "key")
      vers chunks
      (match (getInfos range_as_stored json_canned server_canned
                "user" "key" "project" 6 []).1 with
       | Ok infos => infos
       | Err _ => []
       end) /\
    length (getInfos range_as_stored json_canned server_canned
              "user" "key" "project" 6 []).2
    = S (sum_list ((fun ver => length (versionRes.BuildVariants ver)) <$> vers)).
Proof.
  exact (getInfos_Ok range_as_stored json_canned server_canned
           "user" "key" "project" 6 _ _ eq_refl).
Defined.

(** *** More about the builders *)

#[local] Existing Instance agg.any_inhabited.

Lemma sortBysToD_steps (sorts d : list agg.SortBy) k :
  length d = length sorts -> k <= length sorts ->
  foldl (fun d i => <[i := sorts !!! i]> d) d (seq 0 k)
  = take k sorts ++ drop k d.
Proof.
  intros Hlen. induction k as [|k IH]; intros Hk; [done|].
  rewrite seq_S, foldl_snoc, IH by lia. simpl.
  assert (Hk' : k < length sorts) by lia.
  destruct (lookup_lt_is_Some_2 sorts k Hk') as [x Hx].
  rewrite (list_lookup_total_correct _ _ _ Hx).
  rewrite insert_app_r_alt by (rewrite length_take; lia).
  rewrite length_take, Nat.min_l, Nat.sub_diag by lia.
  rewrite (take_S_r _ _ _ Hx), <- app_assoc. f_equal.
  destruct (drop k d) as [|y d'] eqn:Hd.
  - apply (f_equal length) in Hd. rewrite length_drop in Hd. simpl in Hd. lia.
  - simpl. f_equal.
    apply (f_equal (drop 1)) in Hd. rewrite drop_drop in Hd.
    by rewrite Nat.add_1_r in Hd.
Qed.

Lemma append_each {T} (l body : list T) :
  foldl (fun body x => body ++ [x]) body l = body ++ l.
Proof.
  revert body. induction l as [|x l IH]; intros body; simpl.
  - by rewrite app_nil_r.
  - by rewrite IH, <- app_assoc.
Qed.

(** X14. The sort order of [Sort], [Top] and [Bottom] is the sequence of
    sort keys given: as many elements, each with its key and its value, in
    the order of the arguments. *)
Theorem sortBysToD_copies (sorts : list agg.SortBy) (outputExpr : agg.any) :
  agg.sortBysToD sorts = sorts /\
  agg.Sort sorts = [("$sort", agg.bson_D sorts)] /\
  agg.Top outputExpr sorts
  = [("$top", agg.bson_D [("sortBy", agg.bson_D sorts);
                          ("output", outputExpr)])] /\
  agg.Bottom outputExpr sorts
  = [("$bottom", agg.bson_D [("sortBy", agg.bson_D sorts);
                             ("output", outputExpr)])].
Proof.
  assert (H : agg.sortBysToD sorts = sorts).
  { unfold agg.sortBysToD.
    rewrite sortBysToD_steps by (rewrite ?length_replicate; lia).
    by rewrite firstn_all, drop_ge, app_nil_r by (rewrite length_replicate; lia). }
  unfold agg.Sort, agg.Top, agg.Bottom. by rewrite H.
Qed.

(** X15. [AddFields], [Project] and [Group] keep every field given, in the
    order given, names that repeat included; [Group] puts [_id] first. *)
Theorem stages_keep_fields (key : agg.any) (fields : list agg.FieldExpr) :
  agg.AddFields fields = [("$addFields", agg.bson_D fields)] /\
  agg.Project fields = [("$project", agg.bson_D fields)] /\
  agg.Group key fields = [("$group", agg.bson_D (("_id", key) :: fields))].
Proof.
  unfold agg.AddFields, agg.Project, agg.Group. cbn zeta.
  by rewrite !append_each.
Qed.

(** X16. The body of [Filter] starts with [input] and [cond]; it has an [as]
    exactly when the name given is not empty and a [limit] exactly when the
    limit given is not nil, never an empty [as] or a nil [limit]. *)
Theorem Filter_optional (inputExpr condExpr limitExpr : agg.any) (as_ : string) :
  exists body,
    agg.Filter inputExpr as_ condExpr limitExpr = [("$filter", agg.bson_D body)] /\
    take 2 body = [("input", inputExpr); ("cond", condExpr)] /\
    (forall v, ("as", v) ∈ body <-> v = agg.Str as_ /\ as_ <> "") /\
    (forall v, ("limit", v) ∈ body <-> v = limitExpr /\ limitExpr <> agg.Nil).
Proof.
  unfold agg.Filter. eexists. split; [reflexivity|].
  assert (Has : (Z.of_nat (String.length as_) >? 0)%Z = true <-> as_ <> "").
  { destruct as_; simpl; [done|]. split; [done|]. intros _.
    apply Z.gtb_lt. lia. }
  destruct (Z.of_nat (String.length as_) >? 0)%Z;
    destruct limitExpr; cbn [app];
    (split; [done|]); split; intros v;
    rewrite ?elem_of_cons, ?elem_of_nil;
    (split;
     [ intros H; repeat (destruct H as [H|H]); simplify_eq; intuition congruence
     | intros [-> H]; intuition congruence ]).
Qed.

(** X13. A single array argument is taken for the list of operands: with two
    or more operands, [Max], [Min] and [MergeObjects] give the same document
    for the operands and for the one array of them; otherwise different
    operands give different documents. *)
Theorem one_array_as_operands (l l' : list agg.any) :
  2 <= length l ->
  (agg.Max [agg.bson_A l] = agg.Max l /\
   agg.Min [agg.bson_A l] = agg.Min l /\
   agg.MergeObjects [agg.bson_A l] = agg.MergeObjects l) /\
  (2 <= length l' ->
   (agg.Max l = agg.Max l' -> l = l') /\
   (agg.Min l = agg.Min l' -> l = l') /\
   (agg.MergeObjects l = agg.MergeObjects l' -> l = l')).
Proof.
  intros Hl. unfold agg.Max, agg.Min, agg.MergeObjects.
  destruct (Z.eqb_spec (Z.of_nat (length l)) 1) as [|_]; [lia|].
  split; [done|]. intros Hl'.
  destruct (Z.eqb_spec (Z.of_nat (length l')) 1) as [|_]; [lia|].
  repeat split; by intros [= ->].
Qed.

Lemma one_array_as_operands_witness :
  2 <= length [agg.Int 1; agg.Int 2] /\
  2 <= length [agg.Int 1; agg.Int 3] /\
  agg.Max [agg.bson_A [agg.Int 1; agg.Int 2]] = agg.Max [agg.Int 1; agg.Int 2] /\
  (agg.Min [agg.Int 1; agg.Int 2] = agg.Min [agg.Int 1; agg.Int 3] ->
   [agg.Int 1; agg.Int 2] = [agg.Int 1; agg.Int 3]).
Proof.
  assert (H : 2 <= length [agg.Int 1; agg.Int 2]) by (simpl; lia).
  assert (H' : 2 <= length [agg.Int 1; agg.Int 3]) by (simpl; lia).
  split; [exact H|]. split; [exact H'|]. split.
  - exact (proj1 (proj1 (one_array_as_operands
                           [agg.Int 1; agg.Int 2] [agg.Int 1; agg.Int 3] H))).
  - exact (proj1 (proj2 (proj2 (one_array_as_operands
                                  [agg.Int 1; agg.Int 2] [agg.Int 1; agg.Int 3] H)
                           H'))).
Defined.

(** *** The two commands *)

Section commands_facts.

Context (range_map : range_fn) (sort_Slice : sort_fn).
Context (js : json) (net : network) (h : host).

Lemma topfail_Action_run confPath projectID versions limit log :
  topfail_Action range_map sort_Slice js net h confPath projectID versions
    limit log
  = match NewClientSettings h confPath with
    | None => (Err errLoadingConfiguration, log)
    | Some conf =>
        match (if decide (projectID = "") then
                 match Getwd h with
                 | None => Err errGettingCwd
                 | Some cwd =>
                     match EvalSymlinks h cwd with
                     | None => Err errEvaluatingSymlinks
                     | Some cwd' => Ok (FindDefaultProject conf cwd')
                     end
                 end
               else Ok projectID) with
        | Err e => (Err e, log)
        | Ok project =>
            if decide (project = "") then (Err errNeedProject, log) else
            (match (getInfos range_map js net (User conf) (APIKey conf)
                      project versions log).1 with
             | Ok infos =>
                 if Flush h
                 then Ok (topfail_rows range_map sort_Slice infos limit)
                 else Err errFlush
             | Err e => Err (errGettingRevisionInfo e)
             end,
             (getInfos range_map js net (User conf) (APIKey conf)
                project versions log).2)
        end
    end.
Proof.
  unfold topfail_Action, mbind, M_bind, attempt, wrapping, mret, M_ret, fail.
  destruct (NewClientSettings h confPath) as [conf|]; [|done].
  destruct (decide (projectID = "")) as [->|Hflag].
  - destruct (Getwd h) as [cwd|]; [|done].
    destruct (EvalSymlinks h cwd) as [cwd'|]; [|done].
    destruct (decide (FindDefaultProject conf cwd' = "")); [done|].
    destruct (getInfos _ _ _ _ _ _ _ _) as [[infos|e] log']; [|done].
    cbn [fst snd]. by destruct (Flush h).
  - destruct (decide (projectID = "")) as [|_]; [done|].
    destruct (getInfos _ _ _ _ _ _ _ _) as [[infos|e] log']; [|done].
    cbn [fst snd]. by destruct (Flush h).
Qed.

Lemma failstats_Action_run confPath projectID testName limit log :
  failstats_Action range_map sort_Slice js net h confPath projectID testName
    limit log
  = match NewClientSettings h confPath with
    | None => (Err errLoadingConfiguration, log)
    | Some conf =>
        match (if decide (projectID = "") then
                 match Getwd h with
                 | None => Err errGettingCwd
                 | Some cwd =>
                     match EvalSymlinks h cwd with
                     | None => Err errEvaluatingSymlinks
                     | Some cwd' => Ok (FindDefaultProject conf cwd')
                     end
                 end
               else Ok projectID) with
        | Err e => (Err e, log)
        | Ok project =>
            if decide (project = "") then (Err errNeedProject, log) else
            (match (getInfos range_map js net (User conf) (APIKey conf)
                      project limit log).1 with
             | Ok infos =>
                 Ok (failstats_tables range_map sort_Slice infos testName)
             | Err e => Err (errGettingRevisionInfo e)
             end,
             (getInfos range_map js net (User conf) (APIKey conf)
                project limit log).2)
        end
    end.
Proof.
  unfold failstats_Action, mbind, M_bind, attempt, wrapping, mret, M_ret, fail.
  destruct (NewClientSettings h confPath) as [conf|]; [|done].
  destruct (decide (projectID = "")) as [->|Hflag].
  - destruct (Getwd h) as [cwd|]; [|done].
    destruct (EvalSymlinks h cwd) as [cwd'|]; [|done].
    destruct (decide (FindDefaultProject conf cwd' = "")); [done|].
    by destruct (getInfos _ _ _ _ _ _ _ _) as [[infos|e] log'].
  - destruct (decide (projectID = "")) as [|_]; [done|].
    by destruct (getInfos _ _ _ _ _ _ _ _) as [[infos|e] log'].
Qed.

(** X12. When the settings load and a project is resolved (the flag if it
    is not empty, else the default project of the working directory, not
    empty), a command makes the requests of [getInfos] for that project
    with the user and the key of the settings, and returns its tables or
    the error of [getInfos]; in every other case it returns an error
    without a request. *)
Theorem commands_resolve_project confPath projectID testName versions limit log :
  (forall conf project,
      resolves h confPath projectID conf project ->
      topfail_Action range_map sort_Slice js net h
        confPath projectID versions limit log
      = (match (getInfos range_map js net (User conf) (APIKey conf)
                  project versions log).1 with
         | Ok infos =>
             if Flush h
             then Ok (topfail_rows range_map sort_Slice infos limit)
             else Err errFlush
         | Err e => Err (errGettingRevisionInfo e)
         end,
         (getInfos range_map js net (User conf) (APIKey conf)
            project versions log).2) /\
      failstats_Action range_map sort_Slice js net h
        confPath projectID testName versions log
      = (match (getInfos range_map js net (User conf) (APIKey conf)
                  project versions log).1 with
         | Ok infos => Ok (failstats_tables range_map sort_Slice infos testName)
         | Err e => Err (errGettingRevisionInfo e)
         end,
         (getInfos range_map js net (User conf) (APIKey conf)
            project versions log).2)) /\
  ((forall conf project, ~ resolves h confPath projectID conf project) ->
   exists e,
     before_fetching e /\
     topfail_Action range_map sort_Slice js net h
       confPath projectID versions limit log = (Err e, log) /\
     failstats_Action range_map sort_Slice js net h
       confPath projectID testName versions log = (Err e, log)).
Proof.
  rewrite topfail_Action_run, failstats_Action_run. split.
  - intros conf project (Hconf & Hne & Hwhich). rewrite Hconf.
    destruct Hwhich as [[Hflag ->]|(-> & cwd & cwd' & Hwd & Hev & ->)].
    + rewrite !decide_False by done. done.
    + rewrite decide_True, Hwd, Hev by done.
      rewrite !decide_False by done. done.
  - intros Hno.
    destruct (NewClientSettings h confPath) as [conf|] eqn:Hconf.
    2:{ by exists errLoadingConfiguration. }
    destruct (decide (projectID = "")) as [->|Hflag].
    2:{ destruct (Hno conf projectID). split; [done|]. split; [done|]. by left. }
    destruct (Getwd h) as [cwd|] eqn:Hwd.
    2:{ by exists errGettingCwd. }
    destruct (EvalSymlinks h cwd) as [cwd'|] eqn:Hev.
    2:{ by exists errEvaluatingSymlinks. }
    destruct (decide (FindDefaultProject conf cwd' = "")) as [Hnone|Hsome].
    + by exists errNeedProject.
    + destruct (Hno conf (FindDefaultProject conf cwd')).
      split; [done|]. split; [done|]. right. split; [done|].
      by exists cwd, cwd'.
Qed.

End commands_facts.

(** Without a flag and without a default project both commands fail before
    any request. *)
Lemma commands_need_project :
  topfail_Action range_as_stored sort_Slice_short json_canned server_canned
    host_without_default "conf" "" 6 20 []
  = (Err errNeedProject, []) /\
  failstats_Action range_as_stored sort_Slice_short json_canned server_canned
    host_without_default "conf" "" "Test" 6 []
  = (Err errNeedProject, []).
Proof. by vm_compute. Qed.

(** *** Tasks with one failed test *)

Lemma bind_nil {A B} (f : A -> list B) (l : list A) :
  (forall x, x ∈ l -> f x = []) -> l ≫= f = [].
Proof.
  induction l as [|x l IH]; intros Hf; [done|].
  rewrite bind_cons, Hf, IH; [done| |by left].
  intros y Hy. apply Hf. by right.
Qed.

Section lone_failures.

Context (range_map : range_fn) (sort_Slice : sort_fn).
Hypothesis range_ok : range_contract range_map.
Hypothesis sort_ok : sort_contract sort_Slice.

(** X6. A test that is the only failed test of its task is not counted: when
    no task has more than one failed test, the table of [topfail] has no
    row. *)
Theorem topfail_lone_failures infos limit :
  (forall info variant task,
      info ∈ infos -> variant ∈ FailedVariants info ->
      task ∈ FailedTasks variant -> length (FailedTests task) <= 1) ->
  topfail_rows range_map sort_Slice infos limit = [].
Proof.
  intros Hlone.
  assert (Hnone : failures infos = []).
  { unfold failures. apply bind_nil. intros info Hinfo.
    apply bind_nil. intros variant Hvariant.
    apply bind_nil. intros task Htask.
    specialize (Hlone info variant task Hinfo Hvariant Htask).
    destruct (FailedTests task) as [|x [|y l]]; [done..|simpl in Hlone; lia]. }
  unfold topfail_rows. rewrite aggregate_failures, Hnone. cbn [foldl].
  pose proof (range_ok _ (∅ : gmap string failedTestInfo)) as Hp.
  rewrite map_to_list_empty in Hp. apply Permutation_nil_r in Hp.
  rewrite Hp. cbn [fmap list_fmap].
  pose proof (sort_Slice_Permutation _ sort_ok _ by_TotalFailures []) as Hs.
  apply Permutation_nil_r in Hs. rewrite Hs.
  destruct (truncate_take limit ([] : list failedTestInfo)) as (k & -> & _).
  by rewrite take_nil.
Qed.

End lone_failures.

Lemma topfail_lone_failures_witness :
  topfail_rows range_as_stored sort_Slice_short lone_infos 20 = [].
Proof.
  apply (topfail_lone_failures range_as_stored sort_Slice_short
           range_as_stored_contract sort_Slice_short_contract lone_infos 20).
  intros info variant task Hinfo Hvariant Htask.
  apply list_elem_of_singleton in Hinfo as ->.
  apply list_elem_of_singleton in Hvariant as ->.
  simpl in Htask.
  apply elem_of_cons in Htask as [->|Htask]; [simpl; lia|].
  apply list_elem_of_singleton in Htask as ->. simpl. lia.
Defined.

Lemma filterTests_subsequence_witness :
  NoDup ["b"; "a"; "a/x"] /\ NoDup (filterTests ["b"; "a"; "a/x"]).2.
Proof.
  assert (H : NoDup ["b"; "a"; "a/x"])
    by (apply (bool_decide_unpack _); by vm_compute).
  split; [exact H|].
  exact (proj2 (proj2 (proj2 (filterTests_subsequence ["b"; "a"; "a/x"]))) H).
Defined.

Lemma commands_resolve_project_witness :
  resolves host_with_default "conf" ""
    {| User := "user"; APIKey := "key"; FindDefaultProject _ := "project" |}
    "project" /\
  topfail_Action range_as_stored sort_Slice_short json_canned server_canned
    host_with_default "conf" "" 6 20 []
  = (match (getInfos range_as_stored json_canned server_canned
              "user" "key" "project" 6 []).1 with
     | Ok infos =>
         if Flush host_with_default
         then Ok (topfail_rows range_as_stored sort_Slice_short infos 20)
         else Err errFlush
     | Err e => Err (errGettingRevisionInfo e)
     end,
     (getInfos range_as_stored json_canned server_canned
        "user" "key" "project" 6 []).2).
Proof.
  assert (H : resolves host_with_default "conf" ""
                {| User := "user"; APIKey := "key";
                   FindDefaultProject _ := "project" |} "project").
  { split; [reflexivity|]. split; [discriminate|]. right.
    split; [reflexivity|]. exists "/src", "/src". repeat split. }
  split; [exact H|].
  exact (proj1 (proj1 (commands_resolve_project range_as_stored
                         sort_Slice_short json_canned server_canned
                         host_with_default "conf" "" "Test" 6 20 [])
                  _ _ H)).
Defined.
